(** * codeownerreport: owners of the files changed on the current branch

    A shallow embedding of [main.go].  The program is one [main] function
    that calls into three dependencies: go-git (repository access),
    hmarr/codeowners (the CODEOWNERS ruleset) and samber/lo (slice
    helpers).  The calls into go-git are results supplied by an
    environment record; the two [lo] helpers and the ruleset matcher of
    the codeowners package are written out in the modules [lo] and
    [codeowners] below, after the packages' published sources (they are
    not part of this repository's own files).  The pipeline itself takes
    the ruleset matcher as an argument, so that every statement about
    [main.go] alone holds for any matcher. *)

From stdpp Require Import gmap strings list fin_maps.
From Stdlib Require Import Ascii String ZArith.

Open Scope string_scope.
Open Scope list_scope.

(** ** Go values shared by the packages *)

(** Go's [error] values, as far as [main] tells them apart:
    [git.ErrBranchNotFound] against everything else. *)
Inductive error :=
| ErrBranchNotFound
| ErrOther (msg : string).

(** A Go result pair [(value, err)] of which exactly one side is set. *)
Inductive result (A : Type) :=
| Ok (a : A)
| Err (e : error).
Arguments Ok {A} a.
Arguments Err {A} e.

(** [errors.Is(err, git.ErrBranchNotFound)]; [err] is [nil] on [Ok]. *)
Definition errors_Is_ErrBranchNotFound {A} (r : result A) : bool :=
  match r with
  | Err ErrBranchNotFound => true
  | _ => false
  end.

(** ** Package lo *)

Module lo.

(** [lo.Uniq]: one pass with a [seen] set, keeping the first occurrence
    of every element in the order of the input. *)
Fixpoint Uniq_loop (seen : gset string) (result : list string)
    (collection : list string) : list string :=
  match collection with
  | [] => result
  | x :: rest =>
      if decide (x ∈ seen) then Uniq_loop seen result rest
      else Uniq_loop ({[x]} ∪ seen) (result ++ [x]) rest
  end.

Definition Uniq (collection : list string) : list string :=
  Uniq_loop ∅ [] collection.

(** [lo.Map]: the iteratee receives the item and its index. *)
Definition Map {A B} (collection : list A) (iteratee : A → nat → B) : list B :=
  imap (λ index item, iteratee item index) collection.

End lo.

(** ** Go strings as sequences of characters

    [utf8.DecodeRuneInString], applied from the front to the end of the
    string, as [for _, ch := range s] and the regexp engine read a
    string: a byte below 128 is itself, a well-formed sequence of two to
    four bytes is one character, and every byte that opens no well-formed
    sequence is the character [RuneError], one byte wide. *)

Module utf8.

Definition RuneError : N := 65533.

(** For the first byte of a sequence: its length and the range of the
    byte that must follow ([first] and [acceptRanges] of the package). *)
Definition first (b0 : N) : option (nat * N * N) :=
  if (b0 <? 194)%N then None
  else if (b0 <=? 223)%N then Some (2%nat, 128%N, 191%N)
  else if (b0 =? 224)%N then Some (3%nat, 160%N, 191%N)
  else if (b0 <=? 236)%N then Some (3%nat, 128%N, 191%N)
  else if (b0 =? 237)%N then Some (3%nat, 128%N, 159%N)
  else if (b0 <=? 239)%N then Some (3%nat, 128%N, 191%N)
  else if (b0 =? 240)%N then Some (4%nat, 144%N, 191%N)
  else if (b0 <=? 243)%N then Some (4%nat, 128%N, 191%N)
  else if (b0 =? 244)%N then Some (4%nat, 128%N, 143%N)
  else None.

Definition continuation (b : N) : bool := (128 <=? b)%N && (b <=? 191)%N.

Definition rune2 (b0 b1 : N) : N :=
  N.lor (N.shiftl (N.land b0 31) 6) (N.land b1 63).

Definition rune3 (b0 b1 b2 : N) : N :=
  N.lor (N.lor (N.shiftl (N.land b0 15) 12) (N.shiftl (N.land b1 63) 6))
        (N.land b2 63).

Definition rune4 (b0 b1 b2 b3 : N) : N :=
  N.lor (N.lor (N.lor (N.shiftl (N.land b0 7) 18) (N.shiftl (N.land b1 63) 12))
               (N.shiftl (N.land b2 63) 6))
        (N.land b3 63).

Fixpoint runes (s : string) : list N :=
  match s with
  | EmptyString => []
  | String c0 t0 =>
      let b0 := N_of_ascii c0 in
      if (b0 <? 128)%N then b0 :: runes t0
      else
        match first b0, t0 with
        | Some (sz, lo, hi), String c1 t1 =>
            let b1 := N_of_ascii c1 in
            if negb ((lo <=? b1)%N && (b1 <=? hi)%N) then RuneError :: runes t0
            else
              match sz, t1 with
              | 2%nat, _ => rune2 b0 b1 :: runes t1
              | 3%nat, String c2 t2 =>
                  let b2 := N_of_ascii c2 in
                  if continuation b2 then rune3 b0 b1 b2 :: runes t2
                  else RuneError :: runes t0
              | 4%nat, String c2 (String c3 t3) =>
                  let b2 := N_of_ascii c2 in
                  let b3 := N_of_ascii c3 in
                  if continuation b2 && continuation b3
                  then rune4 b0 b1 b2 b3 :: runes t3
                  else RuneError :: runes t0
              | _, _ => RuneError :: runes t0
              end
        | _, _ => RuneError :: runes t0
        end
  end.

End utf8.

(** ** Regular expressions

    The codeowners package prints a regular expression and hands it to
    Go's [regexp.Compile].  Here the expression is kept as a syntax tree
    with just the forms the package emits, and matched by derivatives over
    the characters of the string.  Every expression the package builds is
    wrapped in [\A ... \z], so [MatchString] is a match of the whole
    string.  A literal stands for one character and is compared with the
    characters of the string as [utf8] decodes them. *)

Module regexp.

Inductive Regexp :=
| Fail                       (* matches nothing *)
| Eps                        (* the empty string *)
| Lit (c : N)                (* a quoted literal character *)
| Dot                        (* [.]: any character but newline *)
| NotLit (c : N)             (* [[^c]] *)
| Cat (r s : Regexp)
| Alt (r s : Regexp)
| Star (r : Regexp).

Definition Plus (r : Regexp) : Regexp := Cat r (Star r).
Definition Opt (r : Regexp) : Regexp := Alt r Eps.

Definition newline : N := 10.

Fixpoint nullable (r : Regexp) : bool :=
  match r with
  | Fail | Lit _ | Dot | NotLit _ => false
  | Eps | Star _ => true
  | Cat r s => nullable r && nullable s
  | Alt r s => nullable r || nullable s
  end.

Definition cat (r s : Regexp) : Regexp :=
  match r, s with
  | Fail, _ | _, Fail => Fail
  | Eps, _ => s
  | _, _ => Cat r s
  end.

Definition alt (r s : Regexp) : Regexp :=
  match r, s with
  | Fail, _ => s
  | _, Fail => r
  | _, _ => Alt r s
  end.

Fixpoint deriv (c : N) (r : Regexp) : Regexp :=
  match r with
  | Fail | Eps => Fail
  | Lit d => if (c =? d)%N then Eps else Fail
  | Dot => if (c =? newline)%N then Fail else Eps
  | NotLit d => if (c =? d)%N then Fail else Eps
  | Cat r s =>
      if nullable r then alt (cat (deriv c r) s) (deriv c s)
      else cat (deriv c r) s
  | Alt r s => alt (deriv c r) (deriv c s)
  | Star r => cat (deriv c r) (Star r)
  end.

Fixpoint match_runes (r : Regexp) (cs : list N) : bool :=
  match cs with
  | [] => nullable r
  | c :: cs' => match_runes (deriv c r) cs'
  end.

Definition MatchString (r : Regexp) (s : string) : bool :=
  match_runes r (utf8.runes s).

(** The language of an expression, as a relation on character sequences. *)
Inductive matches : Regexp → list N → Prop :=
| m_eps : matches Eps []
| m_lit c : matches (Lit c) [c]
| m_dot c : c ≠ newline → matches Dot [c]
| m_notlit c d : c ≠ d → matches (NotLit d) [c]
| m_cat r s u v : matches r u → matches s v → matches (Cat r s) (u ++ v)
| m_alt_l r s u : matches r u → matches (Alt r s) u
| m_alt_r r s u : matches s u → matches (Alt r s) u
| m_star_nil r : matches (Star r) []
| m_star_cons r c u v :
    matches r (c :: u) → matches (Star r) v →
    matches (Star r) ((c :: u) ++ v).

End regexp.

(** ** Package codeowners *)

Module codeowners.
Import regexp.

Definition EmailOwner : string := "email".
Definition TeamOwner : string := "team".
Definition UsernameOwner : string := "username".

Record Owner := { Value : string; Type_ : string }.

(** [Owner.String]: the address for an email owner, otherwise the name
    behind an [@]. *)
Definition Owner_String (o : Owner) : string :=
  if String.eqb (Type_ o) EmailOwner then Value o else "@" +:+ Value o.

Record pattern := {
  pattern_str : string;
  regex : Regexp;
  leftAnchoredLiteral : bool
}.

Record Rule := {
  Owners : list Owner;
  Comment : string;
  LineNumber : nat;
  rule_pattern : pattern
}.

Definition Ruleset := list Rule.

(** [strings.Split(s, "/")]. *)
Fixpoint split_slash (s : string) : list string :=
  match s with
  | EmptyString => [EmptyString]
  | String c s' =>
      if Ascii.eqb c "/" then EmptyString :: split_slash s'
      else match split_slash s' with
           | seg :: segs => String c seg :: segs
           | [] => [String c EmptyString]
           end
  end.

(** [strings.ContainsAny(s, chars)]. *)
Fixpoint contains_any (s : string) (chars : list ascii) : bool :=
  match s with
  | EmptyString => false
  | String c s' => bool_decide (c ∈ chars) || contains_any s' chars
  end.

(** [strings.Contains(s, sub)]. *)
Definition contains (s sub : string) : bool :=
  match String.index 0 sub s with
  | Some _ => true
  | None => false
  end.

(** The characters [/], [\], [*] and [?]. *)
Definition slash : N := 47.
Definition backslash : N := 92.
Definition asterisk : N := 42.
Definition question : N := 63.

Definition sep : Regexp := Lit slash.

(** The characters of an ordinary segment ([for _, ch := range seg]): a
    backslash quotes the next character, [*] and [?] stay inside the
    segment. *)
Fixpoint seg_regex (escape : bool) (seg : list N) : list Regexp :=
  match seg with
  | [] => []
  | ch :: rest =>
      if escape then Lit ch :: seg_regex false rest
      else if (ch =? backslash)%N then seg_regex true rest
      else if (ch =? asterisk)%N then Star (NotLit slash) :: seg_regex false rest
      else if (ch =? question)%N then NotLit slash :: seg_regex false rest
      else Lit ch :: seg_regex false rest
  end.

(** The loop of [buildPatternRegex] over the segments: [i] is the index
    of [seg], [lastSegIndex] the last index, [needSlash] the flag carried
    from one segment to the next. *)
Fixpoint segs_regex (i lastSegIndex : nat) (needSlash : bool)
    (segs : list string) : list Regexp :=
  match segs with
  | [] => []
  | seg :: rest =>
      if String.eqb seg "**" then
        if (i =? 0)%nat && (i =? lastSegIndex)%nat then
          Plus Dot :: segs_regex (S i) lastSegIndex needSlash rest
        else if (i =? 0)%nat then
          Opt (Cat (Plus Dot) sep) :: segs_regex (S i) lastSegIndex false rest
        else if (i =? lastSegIndex)%nat then
          sep :: Star Dot :: segs_regex (S i) lastSegIndex needSlash rest
        else
          Opt (Cat sep (Plus Dot)) :: segs_regex (S i) lastSegIndex true rest
      else if String.eqb seg "*" then
        (if needSlash then [sep] else []) ++
        Plus (NotLit slash) :: segs_regex (S i) lastSegIndex true rest
      else
        (if needSlash then [sep] else []) ++
        seg_regex false (utf8.runes seg) ++
        (if (i =? lastSegIndex)%nat then [Opt (Cat sep (Star Dot))] else []) ++
        segs_regex (S i) lastSegIndex true rest
  end.

Definition concat_regex (rs : list Regexp) : Regexp := foldr Cat Eps rs.

(** The segment list after the leading-slash, single-segment and
    trailing-slash adjustments. *)
Definition pattern_segs (pat : string) : list string :=
  let segs := split_slash pat in
  let segs :=
    match segs with
    | s0 :: tl =>
        if String.eqb s0 EmptyString then tl
        else if bool_decide (List.length segs = 1%nat)
                || (bool_decide (List.length segs = 2%nat)
                    && bool_decide (segs !! 1%nat = Some EmptyString)) then
          if negb (String.eqb s0 "**") then "**" :: segs else segs
        else segs
    | [] => segs
    end in
  if bool_decide (1 < List.length segs)%nat
     && bool_decide (last segs = Some EmptyString)
  then removelast segs ++ ["**"] else segs.

Definition buildPatternRegex (pat : string) : result Regexp :=
  if contains pat "***" then
    Err (ErrOther "pattern cannot contain three consecutive asterisks")
  else if String.eqb pat EmptyString then Err (ErrOther "empty pattern")
  else if String.eqb pat "/" then Ok Eps
  else
    let segs := pattern_segs pat in
    Ok (concat_regex (segs_regex 0 (List.length segs - 1) false segs)).

(** [newPattern]: a pattern without [*], [?] and backslash that starts
    with a slash is matched as a literal prefix, every other pattern
    through its regular expression.  [None] is the run-time fault of
    indexing the empty string. *)
Definition newPattern (patternStr : string) : option (result pattern) :=
  if negb (contains_any patternStr ["*"; "?"; "\"]%char) then
    match String.get 0 patternStr with
    | None => None
    | Some c =>
        if Ascii.eqb c "/" then
          Some (Ok {| pattern_str := patternStr; regex := Fail;
                      leftAnchoredLiteral := true |})
        else
          Some (match buildPatternRegex patternStr with
                | Ok re => Ok {| pattern_str := patternStr; regex := re;
                                 leftAnchoredLiteral := false |}
                | Err e => Err e
                end)
    end
  else
    Some (match buildPatternRegex patternStr with
          | Ok re => Ok {| pattern_str := patternStr; regex := re;
                           leftAnchoredLiteral := false |}
          | Err e => Err e
          end).

(** [pattern.match]; paths use forward slashes already.  [None] is the
    run-time fault of indexing an empty string: a literal pattern is
    stripped of its leading slash and its last byte is looked at, so the
    pattern [/] alone faults. *)
Definition pattern_match (p : pattern) (testPath : string)
    : option (bool * option error) :=
  if leftAnchoredLiteral p then
    match pattern_str p with
    | EmptyString => None
    | String c0 tl =>
        let prefix := if Ascii.eqb c0 "/" then tl else String c0 tl in
        match String.get (String.length prefix - 1) prefix with
        | None => None
        | Some c =>
            if Ascii.eqb c "/" then Some (String.prefix prefix testPath, None)
            else if bool_decide (String.length testPath = String.length prefix) then
              Some (String.eqb testPath prefix, None)
            else if bool_decide (String.length prefix < String.length testPath)%nat
                    && bool_decide (String.get (String.length prefix) testPath
                                    = Some "/"%char) then
              Some (String.eqb (String.substring 0 (String.length prefix) testPath)
                      prefix, None)
            else Some (false, None)
        end
    end
  else Some (MatchString (regex p) testPath, None).

Definition Rule_Match (r : Rule) (path : string) : option (bool * option error) :=
  pattern_match (rule_pattern r) path.

(** [Ruleset.Match]: the rules are tried from the last to the first; the
    first one that matches (or whose match fails) is returned with the
    error, and [(nil, nil)] when the rules are used up.  [None]: a rule's
    match faulted. *)
Fixpoint Match_from_last (rev_rules : list Rule) (path : string)
    : option (option Rule * option error) :=
  match rev_rules with
  | [] => Some (None, None)
  | rule :: earlier =>
      match Rule_Match rule path with
      | None => None
      | Some (matched, err) =>
          if matched || bool_decide (is_Some err) then Some (Some rule, err)
          else Match_from_last earlier path
      end
  end.

Definition Match (r : Ruleset) (path : string)
    : option (option Rule * option error) :=
  Match_from_last (reverse r) path.

(** A rule as the parser builds it from a pattern and its owners; [None]
    when the pattern is refused. *)
Definition mkRule (line : nat) (pat : string) (owners : list Owner) : option Rule :=
  match newPattern pat with
  | Some (Ok p) =>
      Some {| Owners := owners; Comment := EmptyString;
              LineNumber := line; rule_pattern := p |}
  | _ => None
  end.

Definition user (name : string) : Owner :=
  {| Value := name; Type_ := UsernameOwner |}.

End codeowners.

(** ** go-git, as far as [main] uses it

    Commits, trees and change sets are handles; what go-git answers for
    them is a field of the environment. *)

Definition Hash := string.

Record Reference := { ref_Name : string; ref_Hash : Hash }.

(** [config.Branch]: [Merge] is the reference the branch tracks. *)
Record Branch := { Name : string; Remote : string; Merge : string }.

Record Commit := { commit_Hash : Hash }.
Record Tree := { tree_Hash : Hash }.
Record Changes := { changes_id : nat }.

Record File := { Path : string }.

(** [FilePatch.Files()]: [from] is [nil] for an added file, [to] is [nil]
    for a deleted one. *)
Record FilePatch := { fp_from : option File; fp_to : option File }.

(** [ReferenceName.IsBranch]. *)
Definition IsBranch (name : string) : bool := String.prefix "refs/heads/" name.

Record Env := {
  os_Open : string → result string;
  codeowners_ParseFile : string → result codeowners.Ruleset;
  git_PlainOpen : string → result unit;
  repo_Head : result Reference;
  repo_Branch : string → result Branch;
  repo_Reference : string → bool → result Reference;
  repo_CommitObject : Hash → result Commit;
  commit_MergeBase : Commit → Commit → result (list Commit);
  commit_Tree : Commit → result Tree;
  tree_Diff : Tree → Tree → result Changes;
  changes_Patch : Changes → result (list FilePatch)
}.

(** Go leaves the order of [range] over a map open.  A schedule gives, for
    each of the three map loops of [main], the order in which the keys
    come; it is admissible when every order is a permutation of the keys. *)
Record Sched := {
  order_match : list string → list string;
  order_invert : list string → list string;
  order_print : list string → list string
}.

Definition admissible (s : Sched) : Prop :=
  (∀ l, order_match s l ≡ₚ l) ∧ (∀ l, order_invert s l ≡ₚ l) ∧
  (∀ l, order_print s l ≡ₚ l).

(** ** What a run does: events, and how it ends *)

Inductive Level := Info | Error.

Inductive Event :=
| Call_Open (name : string)
| Call_ParseFile
| Call_PlainOpen (path : string)
| Call_Head
| Call_Branch (name : string)
| Call_Reference (name : string) (resolved : bool)
| Call_CommitObject (h : Hash)
| Call_MergeBase (c other : Commit)
| Call_Tree (c : Commit)
| Call_Diff (from to : Tree)
| Call_Patch (c : Changes)
| Call_Match (file : string)
| Log (level : Level) (msg : string)
| Stdout (line : string).     (* one printed line, without its newline *)

(** [os.Exit(code)], or a run-time panic (nil dereference). *)
Inductive Stop :=
| Exit (code : Z)
| Panic.

Record M (A : Type) := mkM { events : list Event; outcome : A + Stop }.
Arguments mkM {A} events outcome.
Arguments events {A} m.
Arguments outcome {A} m.

#[global] Instance M_ret : MRet M := λ A a, mkM [] (inl a).

#[global] Instance M_bind : MBind M := λ A B f m,
  match m with
  | mkM es (inl a) => match f a with mkM es' o => mkM (es ++ es') o end
  | mkM es (inr s) => mkM es (inr s)
  end.

Definition emit (e : Event) : M unit := mkM [e] (inl tt).
Definition call {A} (e : Event) (answer : A) : M A := mkM [e] (inl answer).
Definition os_Exit {A} (code : Z) : M A := mkM [] (inr (Exit code)).
Definition panic {A} : M A := mkM [] (inr Panic).

(** The [if err != nil { slog.Error(msg, ...); os.Exit(1) }] after a call. *)
Definition check {A} (r : result A) (msg : string) : M A :=
  match r with
  | Ok a => mret a
  | Err _ => emit (Log Error msg);; os_Exit 1
  end.

(** The lines printed, and the exit status of the process: 0 when [main]
    returns, the code given to [os.Exit], 2 after a panic. *)
Definition printed (es : list Event) : list string :=
  omap (λ e, match e with Stdout line => Some line | _ => None end) es.

Definition stdout {A} (m : M A) : list string := printed (events m).

Definition exit_code {A} (m : M A) : Z :=
  match outcome m with
  | inl _ => 0
  | inr (Exit code) => code
  | inr Panic => 2
  end.

(** ** main.go *)

Import regexp codeowners.

Definition loadRuleset (env : Env) : M (result Ruleset) :=
  f ← call (Call_Open ".github/CODEOWNERS") (os_Open env ".github/CODEOWNERS");
  match f with
  | Err e => mret (Err e)
  | Ok f => call Call_ParseFile (codeowners_ParseFile env f)
  end.

(** Lines 105-115: the keys of [fileOwners] are the paths of the patch. *)
Definition record_patch (fileOwners : gmap string (list string)) (fp : FilePatch)
    : gmap string (list string) :=
  let fileOwners :=
    match fp_from fp with
    | Some from => <[Path from := []]> fileOwners
    | None => fileOwners
    end in
  match fp_to fp with
  | Some to => <[Path to := []]> fileOwners
  | None => fileOwners
  end.

Definition changed_paths (patches : list FilePatch) : gmap string (list string) :=
  foldl record_patch ∅ patches.

(** The keys of a map in the order a [range] loop sees them. *)
Definition range {V} (order : list string → list string) (m : gmap string V)
    : list string :=
  order (map_to_list m).*1.

(** Lines 117-126: every file is matched; an error is logged and the file
    left as it is; otherwise the owners of the returned rule are stored.
    [rule.Owners] dereferences the returned pointer.  The answer of
    [Match] is [None] when the call itself faults. *)
Fixpoint match_files
    (Match : Ruleset → string → option (option Rule * option error))
    (ruleset : Ruleset) (files : list string)
    (fileOwners : gmap string (list string)) : M (gmap string (list string)) :=
  match files with
  | [] => mret fileOwners
  | file :: rest =>
      r ← call (Call_Match file) (Match ruleset file);
      match r with
      | None => panic
      | Some r =>
          match r.2 with
          | Some _ =>
              emit (Log Error "Failed to match rule for file.");;
              match_files Match ruleset rest fileOwners
          | None =>
              match r.1 with
              | None => panic
              | Some rule =>
                  match_files Match ruleset rest
                    (<[file := lo.Map (Owners rule) (λ owner index, Owner_String owner)]>
                       fileOwners)
              end
          end
      end
  end.

(** Lines 128-133. *)
Definition add_file (file : string) (ownerFiles : gmap string (list string))
    (owner : string) : gmap string (list string) :=
  <[owner := (ownerFiles !!! owner) ++ [file]]> ownerFiles.

Definition owner_files (files : list string) (fileOwners : gmap string (list string))
    : gmap string (list string) :=
  foldl (λ ownerFiles file, foldl (add_file file) ownerFiles (fileOwners !!! file))
        ∅ files.

(** Lines 134-141. *)
Definition print_owner (ownerFiles : gmap string (list string)) (owner : string)
    : list Event :=
  let files := lo.Uniq (ownerFiles !!! owner) in
  Stdout EmptyString :: Stdout owner :: map (λ file, Stdout ("  " +:+ file)) files.

Definition print_report (owners : list string)
    (ownerFiles : gmap string (list string)) : M unit :=
  mkM (List.concat (map (print_owner ownerFiles) owners)) (inl tt).

(** Lines 105-141, from the patch to the printed report. *)
Definition report
    (Match : Ruleset → string → option (option Rule * option error))
    (sched : Sched) (ruleset : Ruleset) (patches : list FilePatch) : M unit :=
  let fileOwners := changed_paths patches in
  fileOwners ← match_files Match ruleset
                 (range (order_match sched) fileOwners) fileOwners;
  let ownerFiles := owner_files (range (order_invert sched) fileOwners) fileOwners in
  print_report (range (order_print sched) ownerFiles) ownerFiles.

(** Lines 14-103: everything up to the patch; every failure logs and exits
    with status 1. *)
Definition setup (env : Env) : M (Ruleset * list FilePatch) :=
  r ← loadRuleset env;
  ruleset ← check r "Error loading ruleset.";
  r ← call (Call_PlainOpen ".") (git_PlainOpen env ".");
  _ ← check r "Error opening repository.";
  r ← call Call_Head (repo_Head env);
  currentBranch ← check r "Error getting current branch.";
  (if IsBranch (ref_Name currentBranch) then mret tt
   else emit (Log Error "Not on a branch.");; os_Exit 1);;
  emit (Log Info "Selected current branch.");;
  r ← call (Call_Branch "main") (repo_Branch env "main");
  r ← (if errors_Is_ErrBranchNotFound r
       then call (Call_Branch "master") (repo_Branch env "master")
       else mret r);
  mainBranch ← check r "Error finding main branch.";
  r ← call (Call_Reference (Merge mainBranch) true)
         (repo_Reference env (Merge mainBranch) true);
  mainRef ← check r "Error resolving main branch to reference.";
  r ← call (Call_CommitObject (ref_Hash mainRef))
         (repo_CommitObject env (ref_Hash mainRef));
  mainCommit ← check r "Error resolving main branch to commit.";
  emit (Log Info "Selected reference branch.");;
  r ← call (Call_CommitObject (ref_Hash currentBranch))
         (repo_CommitObject env (ref_Hash currentBranch));
  currentCommit ← check r "Error resolving HEAD commit.";
  r ← call (Call_MergeBase currentCommit mainCommit)
         (commit_MergeBase env currentCommit mainCommit);
  baseCommits ← check r "Error resolving merge base commit.";
  match baseCommits with
  | [] => emit (Log Error "Could not find merge base.");; os_Exit 1
  | baseCommit :: _ =>
      emit (Log Info "Identified base commit.");;
      r ← call (Call_Tree baseCommit) (commit_Tree env baseCommit);
      baseTree ← check r "Error getting base commit tree.";
      r ← call (Call_Tree currentCommit) (commit_Tree env currentCommit);
      currentTree ← check r "Error getting current commit tree.";
      r ← call (Call_Diff baseTree currentTree) (tree_Diff env baseTree currentTree);
      diff ← check r "Error determining diff between trees.";
      r ← call (Call_Patch diff) (changes_Patch env diff);
      patch ← check r "Error getting patch from diff.";
      mret (ruleset, patch)
  end.

Definition main_with
    (Match : Ruleset → string → option (option Rule * option error))
    (sched : Sched) (env : Env) : M unit :=
  p ← setup env;
  report Match sched p.1 p.2.

(** The program as built: the matcher is the codeowners package's. *)
Definition main (sched : Sched) (env : Env) : M unit :=
  main_with codeowners.Match sched env.

(** ** Notions used in the statements *)

(** The branch names looked up by a run, in the order of the calls. *)
Definition branch_lookups (es : list Event) : list string :=
  omap (λ e, match e with Call_Branch name => Some name | _ => None end) es.

(** Calls that belong to the comparison of the two trees and to what
    follows it. *)
Definition diff_work (e : Event) : bool :=
  match e with
  | Call_MergeBase _ _ | Call_Tree _ | Call_Diff _ _ | Call_Patch _
  | Call_Match _ => true
  | _ => false
  end.

(** The environment with another answer to [Commit.MergeBase]. *)
Definition with_MergeBase (env : Env)
    (answer : Commit → Commit → result (list Commit)) : Env :=
  {| os_Open := os_Open env;
     codeowners_ParseFile := codeowners_ParseFile env;
     git_PlainOpen := git_PlainOpen env;
     repo_Head := repo_Head env;
     repo_Branch := repo_Branch env;
     repo_Reference := repo_Reference env;
     repo_CommitObject := repo_CommitObject env;
     commit_MergeBase := answer;
     commit_Tree := commit_Tree env;
     tree_Diff := tree_Diff env;
     changes_Patch := changes_Patch env |}.

(** [post m Φ]: the events and the outcome of [m] satisfy [Φ]. *)
Definition post {A} (m : M A) (Φ : list Event → A + Stop → Prop) : Prop :=
  Φ (events m) (outcome m).


(** How the matching loop treats the answer of [Match] for one file. *)
Inductive verdict :=
| Skipped                          (* an error: logged, file left without owners *)
| Owned (owners : list string)     (* the owners of the returned rule *)
| Faulted.                         (* a fault in the call, or no error and no
                                      rule: nil dereference *)

#[global] Instance verdict_eq_dec : EqDecision verdict.
Proof. solve_decision. Defined.

Definition classify (r : option (option Rule * option error)) : verdict :=
  match r with
  | None => Faulted
  | Some (_, Some _) => Skipped
  | Some (Some rule, None) => Owned (Owner_String <$> Owners rule)
  | Some (None, None) => Faulted
  end.

(** Everything before the report went through, and gave [ruleset] and
    [patch]. *)
Definition prepared (env : Env) (ruleset : Ruleset) (patch : list FilePatch) : Prop :=
  ∃ text cur mb mref mc cc b bases bt ct d,
    os_Open env ".github/CODEOWNERS" = Ok text ∧
    codeowners_ParseFile env text = Ok ruleset ∧
    git_PlainOpen env "." = Ok tt ∧
    repo_Head env = Ok cur ∧
    IsBranch (ref_Name cur) = true ∧
    (repo_Branch env "main" = Ok mb ∨
     repo_Branch env "main" = Err ErrBranchNotFound ∧
     repo_Branch env "master" = Ok mb) ∧
    repo_Reference env (Merge mb) true = Ok mref ∧
    repo_CommitObject env (ref_Hash mref) = Ok mc ∧
    repo_CommitObject env (ref_Hash cur) = Ok cc ∧
    commit_MergeBase env cc mc = Ok (b :: bases) ∧
    commit_Tree env b = Ok bt ∧
    commit_Tree env cc = Ok ct ∧
    tree_Diff env bt ct = Ok d ∧
    changes_Patch env d = Ok patch.

(** The paths of one file patch: the old path and the new path, as far as
    they are there. *)
Definition patch_paths (fp : FilePatch) : list string :=
  (Path <$> option_list (fp_from fp)) ++ (Path <$> option_list (fp_to fp)).

(** What the matching loop does to [fileOwners] for one file when it does
    not fault. *)
Definition store_owners (Match : Ruleset → string → option (option Rule * option error))
    (ruleset : Ruleset) (fileOwners : gmap string (list string)) (file : string)
    : gmap string (list string) :=
  match classify (Match ruleset file) with
  | Owned owners => <[file := owners]> fileOwners
  | _ => fileOwners
  end.

(** The owners recorded for a file: those of the returned rule, none when
    the match was skipped. *)
Definition owners_found (Match : Ruleset → string → option (option Rule * option error))
    (ruleset : Ruleset) (file : string) : list string :=
  match classify (Match ruleset file) with
  | Owned owners => owners
  | _ => []
  end.

(** The report as blocks: an owner and the files listed under it, in the
    order of printing. *)
Definition blocks_of (owners : list string) (ownerFiles : gmap string (list string))
    : list (string * list string) :=
  (λ owner, (owner, lo.Uniq (ownerFiles !!! owner))) <$> owners.

(** The lines of a block: an empty line, the owner, the indented files. *)
Definition render_block (b : string * list string) : list string :=
  EmptyString :: b.1 :: ((λ file, "  " +:+ file) <$> b.2).

Definition render (blocks : list (string * list string)) : list string :=
  blocks ≫= render_block.

(** The blocks a run of lines 105-141 prints; none when the matching loop
    faults. *)
Definition report_blocks (Match : Ruleset → string → option (option Rule * option error))
    (sched : Sched) (ruleset : Ruleset) (patches : list FilePatch)
    : list (string * list string) :=
  let fileOwners := changed_paths patches in
  match outcome (match_files Match ruleset
                   (range (order_match sched) fileOwners) fileOwners) with
  | inl fileOwners =>
      let ownerFiles :=
        owner_files (range (order_invert sched) fileOwners) fileOwners in
      blocks_of (range (order_print sched) ownerFiles) ownerFiles
  | inr _ => []
  end.

(** [owner] was found for the changed path [file]. *)
Definition owns (Match : Ruleset → string → option (option Rule * option error))
    (ruleset : Ruleset) (patches : list FilePatch) (owner file : string) : Prop :=
  file ∈ dom (changed_paths patches) ∧ owner ∈ owners_found Match ruleset file.

(** Some changed path makes the matching loop panic: the call of [Match]
    for it faults, or brings neither a rule nor an error. *)
Definition faults (Match : Ruleset → string → option (option Rule * option error))
    (ruleset : Ruleset) (patches : list FilePatch) : Prop :=
  ∃ file, file ∈ dom (changed_paths patches) ∧
          classify (Match ruleset file) = Faulted.

(** ** Sample inputs *)

(** A repository on the branch [feature], with a branch [main] and one
    merge base, whose CODEOWNERS file parses to [ruleset] and whose diff
    against the merge base is [patch]. *)
Definition sample_env (ruleset : Ruleset) (patch : list FilePatch) : Env :=
  {| os_Open := λ _, Ok "CODEOWNERS";
     codeowners_ParseFile := λ _, Ok ruleset;
     git_PlainOpen := λ _, Ok tt;
     repo_Head := Ok {| ref_Name := "refs/heads/feature"; ref_Hash := "c2" |};
     repo_Branch := λ name,
       if String.eqb name "main"
       then Ok {| Name := "main"; Remote := "origin"; Merge := "refs/heads/main" |}
       else Err ErrBranchNotFound;
     repo_Reference := λ _ _, Ok {| ref_Name := "refs/heads/main"; ref_Hash := "c1" |};
     repo_CommitObject := λ h, Ok {| commit_Hash := h |};
     commit_MergeBase := λ _ _, Ok [{| commit_Hash := "c0" |}];
     commit_Tree := λ c, Ok {| tree_Hash := commit_Hash c |};
     tree_Diff := λ _ _, Ok {| changes_id := 0 |};
     changes_Patch := λ _, Ok patch |}.

(** The same repository with other answers to the branch lookups. *)
Definition with_Branch (env : Env) (answer : string → result Branch) : Env :=
  {| os_Open := os_Open env;
     codeowners_ParseFile := codeowners_ParseFile env;
     git_PlainOpen := git_PlainOpen env;
     repo_Head := repo_Head env;
     repo_Branch := answer;
     repo_Reference := repo_Reference env;
     repo_CommitObject := repo_CommitObject env;
     commit_MergeBase := commit_MergeBase env;
     commit_Tree := commit_Tree env;
     tree_Diff := tree_Diff env;
     changes_Patch := changes_Patch env |}.

(** Two schedules: the keys as the map lists them, and in reverse. *)
Definition forward : Sched :=
  {| order_match := id; order_invert := id; order_print := id |}.

Definition backward : Sched :=
  {| order_match := reverse; order_invert := reverse; order_print := reverse |}.

(** A rule list from pattern and owner names; patterns that are refused
    are left out. *)
Definition rules (lines : list (string * list string)) : Ruleset :=
  omap (λ line, mkRule 0 line.1 (user <$> line.2)) lines.

Definition modified (path : string) : FilePatch :=
  {| fp_from := Some {| Path := path |}; fp_to := Some {| Path := path |} |}.

Definition renamed (old new : string) : FilePatch :=
  {| fp_from := Some {| Path := old |}; fp_to := Some {| Path := new |} |}.

(** The sample repository, with two merge bases; with a branch lookup that
    fails for another reason than a missing branch; with neither [main]
    nor [master]. *)
Definition two_bases : list Commit :=
  [{| commit_Hash := "c0" |}; {| commit_Hash := "b9" |}].

Definition env_two_bases : Env :=
  with_MergeBase (sample_env [] [modified "a.go"]) (λ _ _, Ok two_bases).

Definition env_unreadable : Env :=
  with_Branch (sample_env [] [modified "a.go"])
    (λ _, Err (ErrOther "config unreadable")).

Definition env_no_mainline : Env :=
  with_Branch (sample_env [] [modified "a.go"]) (λ _, Err ErrBranchNotFound).

(** Two changed files under one owner; a changed file that no rule
    matches next to one that is matched. *)
Definition env_two_files : Env :=
  sample_env (rules [("*.go", ["gophers"])]) [modified "a.go"; modified "b.go"].

Definition env_unmatched : Env :=
  sample_env (rules [("*.go", ["gophers"])]) [modified "README.md"; modified "main.go"].

(** A rule without owners behind a rule with one. *)
Definition env_ownerless : Env :=
  sample_env (rules [("*", ["everyone"]); ("/docs/", [])])
    [modified "docs/guide.md"; modified "main.go"].

Definition ownerless_rules : Ruleset := rules [("*", ["everyone"]); ("/docs/", [])].

Definition docs_rule : Rule :=
  {| Owners := []; Comment := EmptyString; LineNumber := 0;
     rule_pattern := {| pattern_str := "/docs/"; regex := regexp.Fail;
                        leftAnchoredLiteral := true |} |}.

(** A string without a newline character. *)
Fixpoint no_newline (s : string) : bool :=
  match s with
  | EmptyString => true
  | String c s' => negb (N_of_ascii c =? regexp.newline)%N && no_newline s'
  end.

(** ** Further notions: what a run logged and called *)

(** The messages logged at level [Error], in order. *)
Definition error_logs (es : list Event) : list string :=
  omap (λ e, match e with Log Error msg => Some msg | _ => None end) es.

(** The files handed to [Match], the commits whose tree was read, the
    pairs of trees compared and the pairs of commits whose merge base was
    asked for, each in the order of the calls. *)
Definition matched_files (es : list Event) : list string :=
  omap (λ e, match e with Call_Match file => Some file | _ => None end) es.

Definition tree_calls (es : list Event) : list Commit :=
  omap (λ e, match e with Call_Tree c => Some c | _ => None end) es.

Definition diff_calls (es : list Event) : list (Tree * Tree) :=
  omap (λ e, match e with Call_Diff from to => Some (from, to) | _ => None end) es.

Definition merge_base_calls (es : list Event) : list (Commit * Commit) :=
  omap (λ e, match e with Call_MergeBase c other => Some (c, other) | _ => None end) es.

(** Events of the report phase: a match, a log line or a printed line. *)
Definition report_event (e : Event) : Prop :=
  match e with
  | Call_Match _ | Log _ _ | Stdout _ => True
  | _ => False
  end.

(** The environment with another answer to [os.Open] or to [Head]. *)
Definition with_Open (env : Env) (answer : string → result string) : Env :=
  {| os_Open := answer;
     codeowners_ParseFile := codeowners_ParseFile env;
     git_PlainOpen := git_PlainOpen env;
     repo_Head := repo_Head env;
     repo_Branch := repo_Branch env;
     repo_Reference := repo_Reference env;
     repo_CommitObject := repo_CommitObject env;
     commit_MergeBase := commit_MergeBase env;
     commit_Tree := commit_Tree env;
     tree_Diff := tree_Diff env;
     changes_Patch := changes_Patch env |}.

Definition with_Head (env : Env) (answer : result Reference) : Env :=
  {| os_Open := os_Open env;
     codeowners_ParseFile := codeowners_ParseFile env;
     git_PlainOpen := git_PlainOpen env;
     repo_Head := answer;
     repo_Branch := repo_Branch env;
     repo_Reference := repo_Reference env;
     repo_CommitObject := repo_CommitObject env;
     commit_MergeBase := commit_MergeBase env;
     commit_Tree := commit_Tree env;
     tree_Diff := tree_Diff env;
     changes_Patch := changes_Patch env |}.

(** The sample repository without a CODEOWNERS file; with a detached
    HEAD; with only a branch [master]. *)
Definition env_no_codeowners : Env :=
  with_Open (sample_env [] [modified "a.go"]) (λ _, Err (ErrOther "no such file")).

Definition env_detached : Env :=
  with_Head (sample_env [] [modified "a.go"])
    (Ok {| ref_Name := "HEAD"; ref_Hash := "c2" |}).

Definition main_branch : Branch :=
  {| Name := "main"; Remote := "origin"; Merge := "refs/heads/main" |}.

Definition env_other_master : Env :=
  with_Branch (sample_env [] [modified "a.go"])
    (λ name, if String.eqb name "main" then Ok main_branch
             else Err (ErrOther "config unreadable")).

(** A matcher that fails with an error on [broken.go] and otherwise is
    the codeowners matcher. *)
Definition Match_broken (ruleset : Ruleset) (file : string)
    : option (option Rule * option error) :=
  if String.eqb file "broken.go" then Some (None, Some (ErrOther "bad pattern"))
  else Match ruleset file.

Definition env_broken : Env :=
  sample_env (rules [("*.go", ["gophers"])]) [modified "broken.go"; modified "main.go"].

(** The message of the matching loop for a file whose match failed. *)
Definition match_failed : string := "Failed to match rule for file.".

(** The sample repository with an empty diff, and a [fileOwners] map with
    two files under a common owner. *)
Definition env_no_changes : Env := sample_env (rules [("*.go", ["gophers"])]) [].

Definition sample_fileOwners : gmap string (list string) :=
  <["a.go" := ["@x"; "@y"]]> (<["b.go" := ["@x"]]> ∅).

(** The sample repository with a branch [master] and no branch [main];
    and one with a renamed file whose old and new path have different
    owners. *)
Definition env_only_master : Env :=
  with_Branch (sample_env [] [modified "a.go"])
    (λ name, if String.eqb name "master" then Ok main_branch
             else Err ErrBranchNotFound).

Definition rename_rules : Ruleset :=
  rules [("/old/", ["archive"]); ("/new/", ["core"])].

Definition env_rename : Env :=
  sample_env rename_rules [renamed "old/x.go" "new/x.go"].

(** ** Further notions: how far a run gets *)

(** The references resolved, in the order of the calls. *)
Definition reference_calls (es : list Event) : list (string * bool) :=
  omap (λ e, match e with
             | Call_Reference name resolved => Some (name, resolved)
             | _ => None
             end) es.

(** The events of a run without the lookups of the branch [master]. *)
Definition without_master_lookup (es : list Event) : list Event :=
  omap (λ e, match e with
             | Call_Branch name =>
                 if String.eqb name "master" then None else Some e
             | _ => Some e
             end) es.

(** The ruleset, the repository and HEAD are in order, and HEAD is on a
    branch: lines 15-36 go through. *)
Definition on_branch (env : Env) : Prop :=
  ∃ text ruleset u cur,
    os_Open env ".github/CODEOWNERS" = Ok text ∧
    codeowners_ParseFile env text = Ok ruleset ∧
    git_PlainOpen env "." = Ok u ∧
    repo_Head env = Ok cur ∧
    IsBranch (ref_Name cur) = true.

(** Lines 15-64 go through: the mainline branch is found and resolved,
    [mc] is its commit and [cc] the commit of HEAD. *)
Definition commits_found (env : Env) (cc mc : Commit) : Prop :=
  ∃ text ruleset u cur mb mref,
    os_Open env ".github/CODEOWNERS" = Ok text ∧
    codeowners_ParseFile env text = Ok ruleset ∧
    git_PlainOpen env "." = Ok u ∧
    repo_Head env = Ok cur ∧
    IsBranch (ref_Name cur) = true ∧
    (repo_Branch env "main" = Ok mb ∨
     repo_Branch env "main" = Err ErrBranchNotFound ∧
     repo_Branch env "master" = Ok mb) ∧
    repo_Reference env (Merge mb) true = Ok mref ∧
    repo_CommitObject env (ref_Hash mref) = Ok mc ∧
    repo_CommitObject env (ref_Hash cur) = Ok cc.

(** The sample repository where HEAD and the mainline have no common
    ancestor; and one where they have two, and where the merge base of
    other pairs of commits is not known. *)
Definition env_no_base : Env :=
  with_MergeBase (sample_env [] [modified "a.go"]) (λ _ _, Ok []).

Definition env_criss_cross : Env :=
  with_MergeBase (sample_env [] [modified "a.go"])
    (λ c other,
       if String.eqb (commit_Hash c) "c2" && String.eqb (commit_Hash other) "c1"
       then Ok two_bases else Err (ErrOther "unknown commits")).

(** The sample repository whose only branch is [master], tracking
    another reference than the sample's [main]. *)
Definition master_branch : Branch :=
  {| Name := "master"; Remote := "origin"; Merge := "refs/heads/master" |}.

Definition env_master : Env :=
  with_Branch (sample_env [] [modified "a.go"])
    (λ name, if String.eqb name "master" then Ok master_branch
             else Err ErrBranchNotFound).

(** A ruleset whose last rule is the bare pattern [/]. *)
Definition slash_rules : Ruleset := rules [("*", ["a"]); ("/", ["b"])].

Definition env_slash : Env := sample_env slash_rules [modified "a.go"].

(** * Proofs *)

(** ** Reasoning about runs *)

Lemma post_bind {A B} (m : M A) (f : A → M B) Φ :
  post m (λ es o, match o with
                  | inl a => post (f a) (λ es' o', Φ (es ++ es') o')
                  | inr s => Φ es (inr s)
                  end) →
  post (m ≫= f) Φ.
Proof.
  unfold post, mbind, M_bind. destruct m as [es [a|s]]; simpl; [|done].
  by destruct (f a).
Qed.

Lemma post_call {A B} e (x : A) (f : A → M B) Φ :
  post (f x) (λ es o, Φ (e :: es) o) → post (call e x ≫= f) Φ.
Proof. intros H. by apply post_bind. Qed.

Lemma post_emit {B} e (f : unit → M B) Φ :
  post (f tt) (λ es o, Φ (e :: es) o) → post (emit e ≫= f) Φ.
Proof. intros H. by apply post_bind. Qed.

Lemma post_ret {A B} (x : A) (f : A → M B) Φ :
  post (f x) Φ → post (mret x ≫= f) Φ.
Proof. intros H. by apply post_bind. Qed.

Lemma post_check {A B} (r : result A) msg (f : A → M B) Φ :
  (∀ a, r = Ok a → post (f a) Φ) →
  (∀ e, r = Err e → Φ [Log Error msg] (inr (Exit 1))) →
  post (check r msg ≫= f) Φ.
Proof.
  intros Hok Herr. apply post_bind. destruct r as [a|e]; simpl.
  - by apply Hok.
  - by apply (Herr e).
Qed.

Lemma post_exit {A B} e (f : A → M B) Φ :
  Φ [e] (inr (Exit 1)) → post ((emit e;; os_Exit 1) ≫= f) Φ.
Proof. intros H. by apply post_bind. Qed.

Lemma post_loadRuleset {B} env (f : result Ruleset → M B) Φ :
  (∀ e, os_Open env ".github/CODEOWNERS" = Err e →
        post (f (Err e)) (λ es o, Φ (Call_Open ".github/CODEOWNERS" :: es) o)) →
  (∀ text, os_Open env ".github/CODEOWNERS" = Ok text →
        post (f (codeowners_ParseFile env text))
          (λ es o, Φ (Call_Open ".github/CODEOWNERS" :: Call_ParseFile :: es) o)) →
  post (loadRuleset env ≫= f) Φ.
Proof.
  intros H1 H2. apply post_bind. unfold loadRuleset.
  apply post_call. destruct (os_Open env _) eqn:E; simpl; [by apply H2 | by apply H1].
Qed.

Lemma post_mono {A} (m : M A) (Φ Ψ : list Event → A + Stop → Prop) :
  post m Φ → (∀ es o, Φ es o → Ψ es o) → post m Ψ.
Proof. unfold post. auto. Qed.

(** One step through [setup]: a call, a log line, a checked result. *)
Ltac mstep :=
  lazymatch goal with
  | |- post (call _ _ ≫= _) _ => apply post_call
  | |- post (emit _ ≫= _) _ => apply post_emit
  | |- post (mret _ ≫= _) _ => apply post_ret
  | |- post (check _ _ ≫= _) _ =>
      apply post_check; [intros ? ? | intros ? ?; cbn]
  | |- post (loadRuleset _ ≫= _) _ => apply post_loadRuleset; intros ? ?
  | |- post ((emit _;; os_Exit 1) ≫= _) _ => apply post_exit; cbn
  | |- post ((if ?b then _ else _) ≫= _) _ => destruct b eqn:?
  | |- post (match ?l with [] => _ | _ :: _ => _ end) _ => destruct l eqn:?
  | |- post (os_Exit _) _ => unfold post; cbn
  | |- post (mret _) _ => unfold post; cbn
  end.

Lemma bind_stop {A B} (m : M A) (f : A → M B) s :
  outcome m = inr s → m ≫= f = mkM (events m) (inr s).
Proof. unfold mbind, M_bind. destruct m as [es [a|s']]; simpl; congruence. Qed.

Lemma bind_go {A B} (m : M A) (f : A → M B) a :
  outcome m = inl a →
  m ≫= f = mkM (events m ++ events (f a)) (outcome (f a)).
Proof.
  unfold mbind, M_bind. destruct m as [es [a'|s']]; simpl; [|congruence].
  intros [= ->]. by destruct (f a).
Qed.

Lemma bind_ext {A B} (m : M A) (f g : A → M B) :
  (∀ a, f a = g a) → m ≫= f = m ≫= g.
Proof.
  intros H. unfold mbind, M_bind. destruct m as [es [a|s]]; [|done].
  by rewrite H.
Qed.


Lemma errors_Is_spec {A} (r : result A) :
  errors_Is_ErrBranchNotFound r = true ↔ r = Err ErrBranchNotFound.
Proof. destruct r as [a|[|msg]]; simpl; split; congruence. Qed.

Lemma errors_Is_false {A} (r : result A) :
  errors_Is_ErrBranchNotFound r = false ↔ r ≠ Err ErrBranchNotFound.
Proof. destruct r as [a|[|msg]]; simpl; split; congruence. Qed.

(** ** The steps before the report *)

(** [setup] prints nothing, never panics and stops with status 1 only;
    it looks up [main], or [main] and then [master], or no branch at all,
    and [master] exactly when the lookup of [main] said "not found". *)
Lemma setup_run env :
  printed (events (setup env)) = [] ∧
  (∀ s, outcome (setup env) = inr s → s = Exit 1) ∧
  (branch_lookups (events (setup env)) = [] ∨
   branch_lookups (events (setup env)) = ["main"] ∧
     repo_Branch env "main" ≠ Err ErrBranchNotFound ∨
   branch_lookups (events (setup env)) = ["main"; "master"] ∧
     repo_Branch env "main" = Err ErrBranchNotFound).
Proof.
  change (post (setup env)
            (λ es o, printed es = [] ∧ (∀ s, o = inr s → s = Exit 1) ∧
               (branch_lookups es = [] ∨
                branch_lookups es = ["main"] ∧
                  repo_Branch env "main" ≠ Err ErrBranchNotFound ∨
                branch_lookups es = ["main"; "master"] ∧
                  repo_Branch env "main" = Err ErrBranchNotFound))).
  unfold setup. repeat mstep.
  all: (split_and!; [done | by (done || intros ? [= <-]) | ]).
  all: rewrite ?errors_Is_spec, ?errors_Is_false in *; eauto.
Qed.

(** A run of [setup] that returns went through every step. *)
Lemma setup_returns env ruleset patch :
  outcome (setup env) = inl (ruleset, patch) → prepared env ruleset patch.
Proof.
  change (post (setup env) (λ _ o, o = inl (ruleset, patch) → prepared env ruleset patch)).
  unfold setup. repeat mstep.
  all: try done.
  all: intros [= -> ->]; subst.
  all: rewrite ?errors_Is_spec, ?errors_Is_false in *.
  all: repeat match goal with x : unit |- _ => destruct x end.
  all: unfold prepared; repeat eexists; eauto.
Qed.

Lemma setup_prepared env ruleset patch :
  prepared env ruleset patch → outcome (setup env) = inl (ruleset, patch).
Proof.
  intros (text & cur & mb & mref & mc & cc & b & bases & bt & ct & d &
          H1 & H2 & H3 & H4 & H5 & H6 & H7 & H8 & H9 & H10 & H11 & H12 & H13 & H14).
  unfold setup, loadRuleset.
  rewrite H1; cbn. rewrite H2; cbn. rewrite H3; cbn. rewrite H4; cbn. rewrite H5; cbn.
  destruct H6 as [H6|[H6 H6']]; rewrite H6; cbn; rewrite ?H6'; cbn.
  all: rewrite H7; cbn; rewrite H8; cbn; rewrite H9; cbn; rewrite H10; cbn.
  all: rewrite H11; cbn; rewrite H12; cbn; rewrite H13; cbn; rewrite H14; cbn.
  all: done.
Qed.

Lemma setup_stops env :
  (∀ ruleset patch, ¬ prepared env ruleset patch) →
  outcome (setup env) = inr (Exit 1).
Proof.
  intros Hno. destruct (outcome (setup env)) as [[ruleset patch]|s] eqn:E.
  - by apply setup_returns, Hno in E.
  - f_equal. by apply (setup_run env).
Qed.

(** ** Package lo *)

Lemma Uniq_loop_spec seen result collection :
  (∀ x, x ∈ seen ↔ x ∈ result) → NoDup result →
  NoDup (lo.Uniq_loop seen result collection) ∧
  ∀ x, x ∈ lo.Uniq_loop seen result collection ↔ x ∈ result ∨ x ∈ collection.
Proof.
  revert seen result. induction collection as [|y rest IH]; intros seen result Hseen Hnd; simpl.
  - split; [done|]. intros x. rewrite elem_of_nil. tauto.
  - destruct (decide (y ∈ seen)) as [Hin|Hnin].
    + destruct (IH seen result Hseen Hnd) as [IH1 IH2]. split; [done|].
      intros x. rewrite IH2, elem_of_cons. apply Hseen in Hin.
      split; [tauto|]. intros [?|[->|?]]; auto.
    + destruct (IH ({[y]} ∪ seen) (result ++ [y])) as [IH1 IH2].
      * intros x. rewrite elem_of_union, elem_of_singleton, elem_of_app,
          list_elem_of_singleton, Hseen. tauto.
      * apply NoDup_app. split_and!; [done| |apply NoDup_singleton].
        intros x Hx ->%list_elem_of_singleton. by apply Hnin, Hseen.
      * split; [done|]. intros x.
        rewrite IH2, elem_of_app, list_elem_of_singleton, elem_of_cons. tauto.
Qed.

Lemma Uniq_NoDup l : NoDup (lo.Uniq l).
Proof. apply Uniq_loop_spec; [set_solver | apply NoDup_nil_2]. Qed.

Lemma elem_of_Uniq l x : x ∈ lo.Uniq l ↔ x ∈ l.
Proof.
  unfold lo.Uniq.
  destruct (Uniq_loop_spec ∅ [] l) as [_ H]; [set_solver | apply NoDup_nil_2 |].
  rewrite H, elem_of_nil. tauto.
Qed.

Lemma Uniq_perm l1 l2 : (∀ x, x ∈ l1 ↔ x ∈ l2) → lo.Uniq l1 ≡ₚ lo.Uniq l2.
Proof.
  intros H. apply NoDup_Permutation; [apply Uniq_NoDup..|].
  intros x. by rewrite !elem_of_Uniq.
Qed.

Lemma Map_fmap {A B} (f : A → B) (l : list A) :
  lo.Map l (λ item _, f item) = f <$> l.
Proof. unfold lo.Map. apply imap_const. Qed.

(** ** Lines 105-115: the changed paths *)

Lemma record_patch_lookup m fp p :
  record_patch m fp !! p =
    if bool_decide (p ∈ patch_paths fp) then Some [] else m !! p.
Proof.
  unfold record_patch, patch_paths.
  destruct (fp_from fp) as [[from]|], (fp_to fp) as [[to]|]; simpl.
  all: rewrite ?lookup_insert; repeat case_decide; repeat case_bool_decide;
    subst; try done.
  all: exfalso; set_solver.
Qed.

Lemma bool_decide_ext_app (p : string) (l1 l2 : list string) :
  bool_decide (p ∈ l1 ++ l2) = bool_decide (p ∈ l1) || bool_decide (p ∈ l2).
Proof.
  repeat case_bool_decide; simpl; try done; rewrite elem_of_app in *; tauto.
Qed.

Lemma foldl_record_patch_lookup patches m p :
  foldl record_patch m patches !! p =
    if bool_decide (p ∈ patches ≫= patch_paths) then Some [] else m !! p.
Proof.
  revert m. induction patches as [|fp patches IH]; intros m; simpl.
  - done.
  - rewrite IH, record_patch_lookup.
    change ((fp :: patches) ≫= patch_paths)
      with (patch_paths fp ++ (patches ≫= patch_paths)).
    rewrite bool_decide_ext_app.
    repeat case_bool_decide; try done; tauto.
Qed.

Lemma changed_paths_lookup patches p :
  changed_paths patches !! p =
    if bool_decide (p ∈ patches ≫= patch_paths) then Some [] else None.
Proof. unfold changed_paths. by rewrite foldl_record_patch_lookup, lookup_empty. Qed.

Lemma elem_of_changed_paths patches p :
  p ∈ dom (changed_paths patches) ↔ ∃ fp, fp ∈ patches ∧ p ∈ patch_paths fp.
Proof.
  rewrite elem_of_dom, changed_paths_lookup.
  assert (p ∈ patches ≫= patch_paths ↔ ∃ fp, fp ∈ patches ∧ p ∈ patch_paths fp) as <-.
  { rewrite list_elem_of_bind. naive_solver. }
  case_bool_decide.
  - split; [done|]. by eexists.
  - split; [by intros [? ?]|done].
Qed.

(** ** [range] under an admissible schedule *)

Lemma range_perm {V} order (m : gmap string V) :
  (∀ l, order l ≡ₚ l) → range order m ≡ₚ (map_to_list m).*1.
Proof. intros H. apply H. Qed.

Lemma range_NoDup {V} order (m : gmap string V) :
  (∀ l, order l ≡ₚ l) → NoDup (range order m).
Proof. intros H. rewrite range_perm by done. apply NoDup_fst_map_to_list. Qed.

Lemma elem_of_range {V} order (m : gmap string V) k :
  (∀ l, order l ≡ₚ l) → k ∈ range order m ↔ k ∈ dom m.
Proof.
  intros H. rewrite range_perm by done.
  rewrite elem_of_dom, list_elem_of_fmap. split.
  - intros ([k' v] & -> & Hin). apply elem_of_map_to_list in Hin. by eexists.
  - intros [v Hv]. exists (k, v). split; [done|]. by apply elem_of_map_to_list.
Qed.

(** ** Lines 117-126: the matching loop *)

Lemma match_files_spec M ruleset files m :
  post (match_files M ruleset files m)
    (λ es o,
       printed es = [] ∧ branch_lookups es = [] ∧
       match o with
       | inl m' =>
           Forall (λ f, classify (M ruleset f) ≠ Faulted) files ∧
           m' = foldl (store_owners M ruleset) m files
       | inr s =>
           s = Panic ∧ Exists (λ f, classify (M ruleset f) = Faulted) files
       end).
Proof.
  revert m. induction files as [|file rest IH]; intros m.
  - by unfold post.
  - cbn [match_files]. apply post_call.
    destruct (M ruleset file) as [[rule err]|] eqn:E; cbn [fst snd].
    2: { unfold post; cbn. split_and!; [done..|].
         apply Exists_cons_hd. by rewrite E. }
    destruct err as [err|]; [|destruct rule as [rule|]].
    3: { unfold post; cbn. split_and!; [done..|].
         apply Exists_cons_hd. by rewrite E. }
    1: apply post_emit.
    2: rewrite Map_fmap.
    all: eapply post_mono; [apply IH|].
    all: intros es [m'|s] (? & ? & ? & ?); (split_and!; [done..| |]).
    all: try (by apply Exists_cons_tl).
    all: try (constructor; [|done]; rewrite E; by destruct rule).
    all: try done.
    all: subst; cbn [foldl]; f_equal.
    all: unfold store_owners; rewrite E; by destruct rule.
Qed.

Lemma foldl_store_lookup M ruleset files m f :
  foldl (store_owners M ruleset) m files !! f =
    match classify (M ruleset f) with
    | Owned owners => if bool_decide (f ∈ files) then Some owners else m !! f
    | _ => m !! f
    end.
Proof.
  revert m. induction files as [|file rest IH]; intros m; cbn [foldl].
  - by destruct (classify _).
  - rewrite IH. unfold store_owners.
    destruct (decide (file = f)) as [->|Hne].
    + destruct (classify (M ruleset f)) as [|owners|]; try done.
      rewrite lookup_insert_eq, (bool_decide_eq_true_2 (f ∈ f :: rest)) by left.
      by case_bool_decide.
    + assert (bool_decide (f ∈ file :: rest) = bool_decide (f ∈ rest)) as ->.
      { apply bool_decide_ext. rewrite elem_of_cons. naive_solver. }
      destruct (classify (M ruleset file)); [done| |done].
      by rewrite lookup_insert_ne.
Qed.

(** ** Lines 128-133: from files to owners *)

Lemma add_file_lookup file acc owner o :
  add_file file acc owner !!! o =
    if decide (owner = o) then (acc !!! o) ++ [file] else acc !!! o.
Proof.
  unfold add_file. case_decide as H.
  - subst. by rewrite lookup_total_insert_eq.
  - by rewrite lookup_total_insert_ne.
Qed.

Lemma foldl_add_file_elem file owners acc o f :
  f ∈ (foldl (add_file file) acc owners !!! o : list string) ↔
  f ∈ (acc !!! o : list string) ∨ f = file ∧ o ∈ owners.
Proof.
  revert acc. induction owners as [|owner owners IH]; intros acc; cbn [foldl].
  - rewrite elem_of_nil. tauto.
  - rewrite IH, add_file_lookup, elem_of_cons. case_decide as H.
    + subst. rewrite elem_of_app, list_elem_of_singleton. tauto.
    + split; [tauto|]. intros [?|[? [?|?]]]; auto. congruence.
Qed.

Lemma foldl_add_file_dom file owners acc o :
  o ∈ dom (foldl (add_file file) acc owners) ↔ o ∈ dom acc ∨ o ∈ owners.
Proof.
  revert acc. induction owners as [|owner owners IH]; intros acc; cbn [foldl].
  - rewrite elem_of_nil. tauto.
  - rewrite IH. unfold add_file. rewrite dom_insert, elem_of_union,
      elem_of_singleton, elem_of_cons. tauto.
Qed.

Lemma owner_files_elem files fileOwners o f :
  f ∈ (owner_files files fileOwners !!! o : list string) ↔
  f ∈ files ∧ o ∈ (fileOwners !!! f : list string).
Proof.
  unfold owner_files.
  assert (∀ acc,
    f ∈ (foldl (λ ownerFiles file,
                  foldl (add_file file) ownerFiles (fileOwners !!! file))
               acc files !!! o : list string) ↔
    f ∈ (acc !!! o : list string) ∨ f ∈ files ∧ o ∈ (fileOwners !!! f : list string)) as H.
  { induction files as [|file files IH]; intros acc; cbn [foldl].
    - rewrite elem_of_nil. tauto.
    - rewrite IH, foldl_add_file_elem, elem_of_cons. naive_solver. }
  rewrite H, lookup_total_empty. cbn. rewrite elem_of_nil. tauto.
Qed.

Lemma owner_files_dom files fileOwners o :
  o ∈ dom (owner_files files fileOwners) ↔
  ∃ f, f ∈ files ∧ o ∈ (fileOwners !!! f : list string).
Proof.
  unfold owner_files.
  assert (∀ acc,
    o ∈ dom (foldl (λ ownerFiles file,
                  foldl (add_file file) ownerFiles (fileOwners !!! file))
               acc files) ↔
    o ∈ dom acc ∨ ∃ f, f ∈ files ∧ o ∈ (fileOwners !!! f : list string)) as H.
  { induction files as [|file files IH]; intros acc; cbn [foldl].
    - split; [tauto|]. intros [?|(f & []%elem_of_nil & _)]; done.
    - rewrite IH, foldl_add_file_dom. split.
      + intros [[?|?]|(f & ? & ?)]; [tauto| |].
        * right. exists file. split; [left|done].
        * right. exists f. split; [by right|done].
      + intros [?|(f & [->|?]%elem_of_cons & ?)]; [tauto|tauto|].
        right. by exists f. }
  rewrite H, dom_empty, elem_of_empty. tauto.
Qed.

(** ** Lines 134-141: printing *)

Lemma printed_app es1 es2 : printed (es1 ++ es2) = printed es1 ++ printed es2.
Proof. apply omap_app. Qed.

Lemma branch_lookups_app es1 es2 :
  branch_lookups (es1 ++ es2) = branch_lookups es1 ++ branch_lookups es2.
Proof. apply omap_app. Qed.

Lemma printed_print_owner ownerFiles owner :
  printed (print_owner ownerFiles owner) =
    render_block (owner, lo.Uniq (ownerFiles !!! owner)).
Proof.
  unfold print_owner, render_block. cbn. do 2 f_equal.
  induction (lo.Uniq _) as [|file files IH]; [done|]. cbn. by rewrite IH.
Qed.

Lemma print_report_spec owners ownerFiles :
  printed (events (print_report owners ownerFiles)) =
    render (blocks_of owners ownerFiles) ∧
  branch_lookups (events (print_report owners ownerFiles)) = [] ∧
  Forall (λ e, ∃ line, e = Stdout line) (events (print_report owners ownerFiles)) ∧
  outcome (print_report owners ownerFiles) = inl tt.
Proof.
  unfold print_report, render, blocks_of. cbn [events outcome].
  split_and!; [| | |done].
  - induction owners as [|owner owners IH]; [done|].
    cbn [map List.concat fmap list_fmap mbind list_bind].
    by rewrite printed_app, printed_print_owner, IH.
  - induction owners as [|owner owners IH]; [done|].
    cbn. rewrite branch_lookups_app, IH, app_nil_r.
    induction (lo.Uniq _) as [|file files IHf]; [done|]. done.
  - induction owners as [|owner owners IH]; [constructor|].
    cbn. constructor; [by eexists|]. constructor; [by eexists|].
    apply Forall_app. split; [|done].
    apply Forall_fmap, Forall_true. intros file. by eexists.
Qed.

(** ** Lines 105-141 together *)

Lemma classify_Faulted r :
  classify r = Faulted ↔ r = None ∨ r = Some (None, None).
Proof.
  destruct r as [[[rule|] [err|]]|]; cbn; split; try done; try tauto.
  all: intros [?|?]; congruence.
Qed.

Lemma elem_of_owners_found M ruleset file owner :
  owner ∈ owners_found M ruleset file ↔
  ∃ rule, M ruleset file = Some (Some rule, None) ∧
          owner ∈ Owner_String <$> Owners rule.
Proof.
  unfold owners_found, classify.
  destruct (M ruleset file) as [[[rule|] [err|]]|]; cbn.
  - split; [by intros ?%elem_of_nil | by intros (rule' & [= ] & ?)].
  - split; [intros H; by exists rule | by intros (rule' & [= <-] & ?)].
  - split; [by intros ?%elem_of_nil | by intros (rule' & [= ] & ?)].
  - split; [by intros ?%elem_of_nil | by intros (rule' & [= ] & ?)].
  - split; [by intros ?%elem_of_nil | by intros (rule' & [= ] & ?)].
Qed.

Lemma faults_dec M ruleset patches :
  faults M ruleset patches ∨ ¬ faults M ruleset patches.
Proof.
  unfold faults.
  destruct (decide (Exists (λ f, classify (M ruleset f) = Faulted)
                          (elements (dom (changed_paths patches))))) as [H|H].
  - left. apply Exists_exists in H as (f & Hf & Hc).
    exists f. split; [by apply elem_of_elements in Hf | done].
  - right. intros (f & Hf & Hm). apply H, Exists_exists. exists f.
    split; [by apply elem_of_elements | done].
Qed.

Lemma match_loop_faults M sched ruleset patches :
  admissible sched → faults M ruleset patches →
  ∃ es,
    match_files M ruleset
      (range (order_match sched) (changed_paths patches)) (changed_paths patches) =
      mkM es (inr Panic) ∧
    printed es = [] ∧ branch_lookups es = [].
Proof.
  intros Hsched (f & Hf & Hm).
  set (fileOwners0 := changed_paths patches) in *.
  set (files := range (order_match sched) fileOwners0).
  pose proof (match_files_spec M ruleset files fileOwners0) as H.
  unfold post in H.
  destruct (match_files M ruleset files fileOwners0) as [es [m'|s]];
    cbn [events outcome] in *.
  - destruct H as (_ & _ & Hall & _). exfalso.
    rewrite Forall_forall in Hall. apply (Hall f).
    + apply elem_of_range; [apply Hsched|done].
    + done.
  - destruct H as (? & ? & -> & _). by exists es.
Qed.

Lemma match_loop_returns M sched ruleset patches :
  admissible sched → ¬ faults M ruleset patches →
  ∃ es fileOwners,
    match_files M ruleset
      (range (order_match sched) (changed_paths patches)) (changed_paths patches) =
      mkM es (inl fileOwners) ∧
    printed es = [] ∧ branch_lookups es = [] ∧
    dom fileOwners = dom (changed_paths patches) ∧
    ∀ f, f ∈ dom (changed_paths patches) →
         fileOwners !!! f = owners_found M ruleset f.
Proof.
  intros Hsched Hno.
  set (fileOwners0 := changed_paths patches) in *.
  set (files := range (order_match sched) fileOwners0).
  pose proof (match_files_spec M ruleset files fileOwners0) as H.
  unfold post in H.
  destruct (match_files M ruleset files fileOwners0) as [es [m'|s]];
    cbn [events outcome] in *.
  - destruct H as (? & ? & _ & ->). exists es. eexists. split_and!; [done..| |].
    + apply set_eq. intros f. rewrite !elem_of_dom, foldl_store_lookup.
      destruct (classify _); [done| |done].
      case_bool_decide as Hin; [|done].
      apply elem_of_range in Hin; [|apply Hsched].
      apply elem_of_dom in Hin. split; [done|by eexists].
    + intros f Hf. rewrite lookup_total_alt, foldl_store_lookup.
      unfold owners_found.
      assert (fileOwners0 !! f = Some []) as Hf0.
      { unfold fileOwners0. rewrite changed_paths_lookup.
        apply elem_of_dom in Hf as [v Hv]. unfold fileOwners0 in Hv.
        rewrite changed_paths_lookup in Hv. by case_bool_decide. }
      destruct (classify _); rewrite ?Hf0; try done.
      rewrite bool_decide_eq_true_2; [done|].
      apply elem_of_range; [apply Hsched|done].
  - destruct H as (_ & _ & _ & Hex). exfalso. apply Hno.
    apply Exists_exists in Hex as (f & Hf & Hc). exists f.
    split; [|done].
    apply elem_of_range in Hf; [done|apply Hsched].
Qed.

(** With a changed path that gets neither rule nor error, the report
    phase panics in the matching loop and prints nothing. *)
Lemma report_faults M sched ruleset patches :
  admissible sched → faults M ruleset patches →
  outcome (report M sched ruleset patches) = inr Panic ∧
  stdout (report M sched ruleset patches) = [] ∧
  branch_lookups (events (report M sched ruleset patches)) = [] ∧
  report_blocks M sched ruleset patches = [].
Proof.
  intros Hsched Hf.
  destruct (match_loop_faults M sched ruleset patches Hsched Hf)
    as (es & Hrun & Hp & Hb).
  unfold report, report_blocks, stdout. rewrite Hrun.
  cbn [mbind M_bind events outcome]. by rewrite Hp, Hb.
Qed.

(** Without one, it returns, and the printed blocks have one block per
    owner found and, in it, the paths the owner was found for, once each. *)
Lemma report_returns M sched ruleset patches :
  admissible sched → ¬ faults M ruleset patches →
  outcome (report M sched ruleset patches) = inl tt ∧
  stdout (report M sched ruleset patches) =
    render (report_blocks M sched ruleset patches) ∧
  branch_lookups (events (report M sched ruleset patches)) = [] ∧
  NoDup (report_blocks M sched ruleset patches).*1 ∧
  (∀ o, o ∈ (report_blocks M sched ruleset patches).*1 ↔
        ∃ f, owns M ruleset patches o f) ∧
  (∀ o fs, (o, fs) ∈ report_blocks M sched ruleset patches →
        NoDup fs ∧ ∀ f, f ∈ fs ↔ owns M ruleset patches o f).
Proof.
  intros Hsched Hno.
  destruct (match_loop_returns M sched ruleset patches Hsched Hno)
    as (es & fo & Hrun & Hp & Hb & Hdom & Hfo).
  destruct Hsched as (_ & Hinv & Hpr).
  set (ownerFiles := owner_files (range (order_invert sched) fo) fo).
  assert (∀ o f, f ∈ (ownerFiles !!! o : list string) ↔ owns M ruleset patches o f)
    as Helem.
  { intros o f. unfold ownerFiles, owns. rewrite owner_files_elem.
    rewrite elem_of_range, Hdom by done.
    split; intros [Hf Ho]; (split; [done|]);
      [by rewrite <- Hfo | by rewrite Hfo]. }
  assert (∀ o, o ∈ dom ownerFiles ↔ ∃ f, owns M ruleset patches o f) as Hkeys.
  { intros o. unfold ownerFiles, owns. rewrite owner_files_dom.
    split; intros (f & Hf & Ho); exists f.
    - rewrite elem_of_range, Hdom in Hf by done. split; [done|].
      by rewrite <- Hfo.
    - rewrite elem_of_range, Hdom by done. split; [done|].
      by rewrite Hfo. }
  assert (report_blocks M sched ruleset patches =
          blocks_of (range (order_print sched) ownerFiles) ownerFiles) as Hblocks.
  { unfold report_blocks. by rewrite Hrun. }
  assert (report M sched ruleset patches =
          mkM (es ++
               events (print_report (range (order_print sched) ownerFiles) ownerFiles))
              (inl tt)) as Hreport.
  { unfold report. by rewrite Hrun. }
  destruct (print_report_spec (range (order_print sched) ownerFiles) ownerFiles)
    as (Hpp & Hpb & _ & _).
  rewrite Hblocks, Hreport. unfold stdout. cbn [events outcome].
  rewrite printed_app, branch_lookups_app, Hp, Hb, Hpp, Hpb.
  assert ((blocks_of (range (order_print sched) ownerFiles) ownerFiles).*1 =
          range (order_print sched) ownerFiles) as Hfst.
  { unfold blocks_of. rewrite <- list_fmap_compose. apply list_fmap_id. }
  rewrite Hfst. split_and!; [done..| | |].
  - by apply range_NoDup.
  - intros o. by rewrite elem_of_range.
  - intros o fs Hin. unfold blocks_of in Hin.
    apply list_elem_of_fmap in Hin as (o' & [= <- ->] & _).
    split; [apply Uniq_NoDup|]. intros f. by rewrite elem_of_Uniq.
Qed.

(** ** The whole run *)

Lemma main_with_prepared M sched env ruleset patch :
  prepared env ruleset patch →
  outcome (main_with M sched env) = outcome (report M sched ruleset patch) ∧
  stdout (main_with M sched env) = stdout (report M sched ruleset patch) ∧
  branch_lookups (events (main_with M sched env)) =
    branch_lookups (events (setup env)) ++
    branch_lookups (events (report M sched ruleset patch)).
Proof.
  intros Hp%setup_prepared. unfold main_with, stdout.
  rewrite (bind_go _ _ _ Hp). cbn [events outcome fst snd].
  rewrite printed_app, branch_lookups_app.
  by destruct (setup_run env) as (-> & _).
Qed.

Lemma main_with_cases M sched env :
  (∃ ruleset patch, prepared env ruleset patch) ∨
  main_with M sched env = mkM (events (setup env)) (inr (Exit 1)).
Proof.
  destruct (outcome (setup env)) as [[ruleset patch]|s] eqn:E.
  - left. exists ruleset, patch. by apply setup_returns.
  - right. unfold main_with. rewrite (bind_stop _ _ _ E).
    f_equal. f_equal. by apply (setup_run env).
Qed.

Lemma report_branch_lookups M sched ruleset patch :
  branch_lookups (events (report M sched ruleset patch)) = [].
Proof.
  change (post (report M sched ruleset patch) (λ es _, branch_lookups es = [])).
  unfold report. apply post_bind.
  eapply post_mono; [apply match_files_spec|].
  intros es [m'|s] (_ & Hb & _); [|done].
  unfold post. rewrite branch_lookups_app, Hb. apply print_report_spec.
Qed.

Lemma main_with_branch_lookups M sched env :
  branch_lookups (events (main_with M sched env)) =
    branch_lookups (events (setup env)).
Proof.
  destruct (main_with_cases M sched env) as [(ruleset & patch & Hp)| ->]; [|done].
  destruct (main_with_prepared M sched env ruleset patch Hp) as (_ & _ & ->).
  by rewrite report_branch_lookups, app_nil_r.
Qed.

Lemma admissible_forward : admissible forward.
Proof. by repeat split. Qed.

Lemma admissible_backward : admissible backward.
Proof. repeat split; intros l; apply reverse_Permutation. Qed.

Lemma sample_prepared ruleset patch :
  prepared (sample_env ruleset patch) ruleset patch.
Proof. unfold prepared. repeat eexists; cbn; eauto. Qed.

(** ** Mainline selection and the merge base *)

Lemma setup_no_mainline env :
  repo_Branch env "main" = Err ErrBranchNotFound →
  repo_Branch env "master" = Err ErrBranchNotFound →
  outcome (setup env) = inr (Exit 1) ∧
  Forall (λ e, diff_work e = false) (events (setup env)).
Proof.
  intros Hmain Hmaster.
  change (post (setup env)
            (λ es o, o = inr (Exit 1) ∧ Forall (λ e, diff_work e = false) es)).
  unfold setup. rewrite Hmain, Hmaster.
  repeat first [progress cbn [errors_Is_ErrBranchNotFound] | mstep].
  all: try done.
  all: split; [done | by repeat constructor].
Qed.

Lemma setup_main_error env e :
  e ≠ ErrBranchNotFound → repo_Branch env "main" = Err e →
  outcome (setup env) = inr (Exit 1) ∧
  "master" ∉ branch_lookups (events (setup env)).
Proof.
  intros He Hmain. split.
  - apply setup_stops. intros ruleset patch Hp.
    destruct Hp as (? & ? & ? & ? & ? & ? & ? & ? & ? & ? & ? & Hp).
    destruct Hp as (_ & _ & _ & _ & _ & [H|[H _]] & _); congruence.
  - destruct (setup_run env) as (_ & _ & [-> | [[-> _] | [_ H]]]).
    + by intros ?%elem_of_nil.
    + by intros [=]%list_elem_of_singleton.
    + congruence.
Qed.

(** What a run that gets through [setup] prints. *)
Lemma printed_report_spec M sched env ruleset patch :
  admissible sched → prepared env ruleset patch →
  stdout (main_with M sched env) = render (report_blocks M sched ruleset patch) ∧
  NoDup (report_blocks M sched ruleset patch).*1 ∧
  (∀ o fs, (o, fs) ∈ report_blocks M sched ruleset patch →
     NoDup fs ∧
     ∀ f, f ∈ fs ↔
          f ∈ dom (changed_paths patch) ∧
          ∃ rule, M ruleset f = Some (Some rule, None) ∧
                  o ∈ Owner_String <$> Owners rule) ∧
  (outcome (main_with M sched env) = inl tt →
     ∀ o, o ∈ (report_blocks M sched ruleset patch).*1 ↔
          ∃ f rule, f ∈ dom (changed_paths patch) ∧
                    M ruleset f = Some (Some rule, None) ∧
                    o ∈ Owner_String <$> Owners rule).
Proof.
  intros Hs Hp.
  destruct (main_with_prepared M sched env ruleset patch Hp) as (Ho & -> & _).
  rewrite Ho.
  destruct (faults_dec M ruleset patch) as [Hf|Hno].
  - destruct (report_faults M sched ruleset patch Hs Hf) as (-> & -> & _ & ->).
    split_and!; [done|constructor| |done].
    by intros o fs ?%elem_of_nil.
  - destruct (report_returns M sched ruleset patch Hs Hno)
      as (_ & -> & _ & Hnd & Hown & Hfiles).
    split_and!; [done..| |].
    + intros o fs Hin. destruct (Hfiles o fs Hin) as [Hndf Hf].
      split; [done|]. intros f. rewrite Hf. unfold owns.
      by rewrite elem_of_owners_found.
    + intros _ o. rewrite Hown. unfold owns.
      setoid_rewrite elem_of_owners_found. naive_solver.
Qed.


(** ** Regular expressions: the matcher decides the language *)

Lemma append_nil_l (s : string) : EmptyString +:+ s = s.
Proof. reflexivity. Qed.

Lemma append_cons c (s t : string) : String c s +:+ t = String c (s +:+ t).
Proof. reflexivity. Qed.

Lemma matches_Fail s : ¬ matches Fail s.
Proof. inversion 1. Qed.

Lemma matches_Eps s : matches Eps s ↔ s = [].
Proof. split; [by inversion 1 | intros ->; constructor]. Qed.

Lemma matches_Lit c s : matches (Lit c) s ↔ s = [c].
Proof. split; [by inversion 1 | intros ->; constructor]. Qed.

Lemma matches_Dot s : matches Dot s ↔ ∃ c, c ≠ newline ∧ s = [c].
Proof.
  split; [inversion 1; by eexists | intros (c & ? & ->); by constructor].
Qed.

Lemma matches_NotLit d s : matches (NotLit d) s ↔ ∃ c, c ≠ d ∧ s = [c].
Proof.
  split; [inversion 1; by eexists | intros (c & ? & ->); by constructor].
Qed.

Lemma matches_Cat r1 r2 s :
  matches (Cat r1 r2) s ↔ ∃ u v, s = u ++ v ∧ matches r1 u ∧ matches r2 v.
Proof.
  split; [inversion 1; by do 2 eexists | intros (u & v & -> & ? & ?); by constructor].
Qed.

Lemma matches_Alt r1 r2 s : matches (Alt r1 r2) s ↔ matches r1 s ∨ matches r2 s.
Proof.
  split; [inversion 1; auto | intros [?|?]; by constructor].
Qed.

Lemma matches_Star r s :
  matches (Star r) s ↔
  s = [] ∨
  ∃ c u v, s = (c :: u) ++ v ∧ matches r (c :: u) ∧ matches (Star r) v.
Proof.
  split.
  - inversion 1; subst; [by left|]. right. by do 3 eexists.
  - intros [->|(c & u & v & -> & ? & ?)]; by constructor.
Qed.

Lemma nullable_spec r : nullable r = true ↔ matches r [].
Proof.
  induction r as [| | | | |r1 IH1 r2 IH2|r1 IH1 r2 IH2|r IH]; cbn.
  - split; [done|by intros ?%matches_Fail].
  - by rewrite matches_Eps.
  - rewrite matches_Lit. split; done.
  - rewrite matches_Dot. split; [done|by intros (? & ? & ?)].
  - rewrite matches_NotLit. split; [done|by intros (? & ? & ?)].
  - rewrite andb_true_iff, IH1, IH2, matches_Cat. split.
    + intros [? ?]. by exists [], [].
    + intros (u & v & [-> ->]%eq_sym%app_eq_nil & ? & ?). done.
  - by rewrite orb_true_iff, IH1, IH2, matches_Alt.
  - split; [constructor|done].
Qed.

Lemma cat_spec r1 r2 s : matches (cat r1 r2) s ↔ matches (Cat r1 r2) s.
Proof.
  rewrite matches_Cat.
  assert (matches r2 s ↔ ∃ u v, s = u ++ v ∧ matches Eps u ∧ matches r2 v) as Heps.
  { split.
    - intros ?. exists [], s. split_and!; [done|constructor|done].
    - intros (u & v & -> & ->%matches_Eps & ?). done. }
  assert (∀ r, matches Fail s ↔ ∃ u v, s = u ++ v ∧ matches Fail u ∧ matches r v) as Hl.
  { intros r. split; [by intros ?%matches_Fail|].
    by intros (u & v & _ & ?%matches_Fail & _). }
  assert (∀ r, matches Fail s ↔ ∃ u v, s = u ++ v ∧ matches r u ∧ matches Fail v) as Hr.
  { intros r. split; [by intros ?%matches_Fail|].
    by intros (u & v & _ & _ & ?%matches_Fail). }
  destruct r1, r2; cbn [cat]; try apply Hl; try apply Hr; try apply Heps;
    apply matches_Cat.
Qed.

Lemma alt_spec r1 r2 s : matches (alt r1 r2) s ↔ matches (Alt r1 r2) s.
Proof.
  rewrite matches_Alt.
  destruct r1, r2; cbn [alt]; rewrite ?matches_Alt;
    split; try tauto; intros [?|?]; try done; by exfalso; eapply matches_Fail.
Qed.

Lemma deriv_spec c r s : matches (deriv c r) s ↔ matches r (c :: s).
Proof.
  revert s. induction r as [| | d | | d |r1 IH1 r2 IH2|r1 IH1 r2 IH2|r IH]; intros s; cbn [deriv].
  - split; by intros ?%matches_Fail.
  - rewrite matches_Eps. split; [by intros ?%matches_Fail|done].
  - rewrite matches_Lit. destruct (N.eqb_spec c d) as [->|Hne].
    + rewrite matches_Eps. split; [by intros ->|by intros [= ->]].
    + split; [by intros ?%matches_Fail|]. intros [= ? ?]. done.
  - rewrite matches_Dot. destruct (N.eqb_spec c newline) as [->|Hne].
    + split; [by intros ?%matches_Fail|]. by intros (c' & ? & [= <- _]).
    + rewrite matches_Eps. split; [intros ->; by exists c|].
      by intros (c' & ? & [= _ ->]).
  - rewrite matches_NotLit. destruct (N.eqb_spec c d) as [->|Hne].
    + split; [by intros ?%matches_Fail|]. by intros (c' & ? & [= <- _]).
    + rewrite matches_Eps. split; [intros ->; by exists c|].
      by intros (c' & ? & [= _ ->]).
  - assert (matches (Cat r1 r2) (c :: s) ↔
            (nullable r1 = true ∧ matches (deriv c r2) s) ∨
            matches (Cat (deriv c r1) r2) s) as ->.
    { rewrite !matches_Cat, nullable_spec, IH2. split.
      - intros (u & v & Huv & Hu & Hv). destruct u as [|c' u].
        + left. cbn in Huv. by subst.
        + cbn in Huv. injection Huv as <- ->. right. exists u, v. by rewrite IH1.
      - intros [[? ?]|(u & v & -> & Hu & Hv)].
        + by exists [], (c :: s).
        + exists (c :: u), v. by rewrite <- IH1. }
    destruct (nullable r1).
    + rewrite alt_spec, matches_Alt, cat_spec. naive_solver.
    + rewrite cat_spec. naive_solver.
  - by rewrite alt_spec, !matches_Alt, IH1, IH2.
  - rewrite cat_spec, matches_Cat, matches_Star. split.
    + intros (u & v & -> & Hu%IH & Hv). right. by exists c, u, v.
    + intros [[=]|(c' & u & v & [= <- ->] & Hu & Hv)].
      exists u, v. by rewrite IH.
Qed.

Lemma match_runes_spec r cs : match_runes r cs = true ↔ matches r cs.
Proof.
  revert r. induction cs as [|c cs IH]; intros r; cbn [match_runes].
  - apply nullable_spec.
  - by rewrite IH, deriv_spec.
Qed.

Lemma MatchString_spec r s : MatchString r s = true ↔ matches r (utf8.runes s).
Proof. apply match_runes_spec. Qed.

Lemma matches_Star_Dot cs : Forall (λ c, c ≠ newline) cs → matches (Star Dot) cs.
Proof.
  induction 1 as [|c cs Hc _ IH]; [constructor|].
  change (c :: cs) with ((c :: []) ++ cs). constructor; [|done]. by constructor.
Qed.

Lemma matches_Plus_Dot cs :
  cs ≠ [] → Forall (λ c, c ≠ newline) cs → matches (Plus Dot) cs.
Proof.
  destruct cs as [|c cs]; [done|]. intros _ [Hc Hcs]%Forall_cons.
  change (c :: cs) with ([c] ++ cs).
  constructor; [by constructor | by apply matches_Star_Dot].
Qed.

(** ** Characters of a string *)

Lemma first_Some b0 sz lo hi :
  utf8.first b0 = Some (sz, lo, hi) →
  (128 ≤ lo)%N ∧ (sz = 2 ∨ sz = 3 ∨ sz = 4)%nat.
Proof.
  unfold utf8.first. repeat case_match; intros [= <- <- <-]; split; auto; lia.
Qed.

Lemma continuation_ascii b : (b < 128)%N → utf8.continuation b = false.
Proof.
  intros H. unfold utf8.continuation. apply andb_false_iff. left.
  apply N.leb_gt. lia.
Qed.

Lemma runes_ascii c t :
  (N_of_ascii c < 128)%N → utf8.runes (String c t) = N_of_ascii c :: utf8.runes t.
Proof.
  intros H. cbn [utf8.runes]. cbv zeta.
  by rewrite (proj2 (N.ltb_lt _ _) H).
Qed.

(** A character below 128 ends whatever sequence is open before it: the
    characters of the string up to it do not depend on what follows. *)
Lemma runes_app_ascii s c t :
  (N_of_ascii c < 128)%N →
  utf8.runes (s +:+ String c t) = utf8.runes s ++ N_of_ascii c :: utf8.runes t.
Proof.
  intros Hc.
  assert (∀ n s, (String.length s ≤ n)%nat →
            utf8.runes (s +:+ String c t) =
              utf8.runes s ++ N_of_ascii c :: utf8.runes t) as H;
    [|by apply (H (String.length s))].
  clear s. induction n as [|n IH]; intros s Hlen.
  { destruct s; [|cbn in Hlen; lia]. rewrite append_nil_l. by apply runes_ascii. }
  destruct s as [|c0 t0]; [rewrite append_nil_l; by apply runes_ascii|].
  cbn [String.length] in Hlen.
  assert (∀ s', (String.length s' ≤ String.length t0)%nat →
            utf8.runes (s' +:+ String c t) =
              utf8.runes s' ++ N_of_ascii c :: utf8.runes t) as IH'.
  { intros s' Hs'. apply IH. lia. }
  clear IH.
  rewrite append_cons. cbn [utf8.runes]. cbv zeta.
  destruct (N_of_ascii c0 <? 128)%N; [by rewrite IH'|].
  destruct (utf8.first (N_of_ascii c0)) as [[[sz lo] hi]|] eqn:Hfirst;
    [|first [by rewrite IH' | destruct t0; by rewrite IH']].
  apply first_Some in Hfirst as [Hlo Hsz].
  assert ((lo <=? N_of_ascii c)%N = false) as Hrange by (apply N.leb_gt; lia).
  pose proof (continuation_ascii _ Hc) as Hcont.
  destruct t0 as [|c1 t1].
  { rewrite append_nil_l, Hrange. cbn [andb negb]. by rewrite runes_ascii. }
  rewrite append_cons.
  destruct (negb _); [by rewrite <- append_cons, IH'|].
  destruct Hsz as [-> | [-> | ->]].
  - rewrite IH' by (cbn; lia). done.
  - destruct t1 as [|c2 t2].
    + rewrite append_nil_l, Hcont.
      change (String c1 (String c t)) with (String c1 EmptyString +:+ String c t).
      by rewrite IH'.
    + rewrite append_cons. destruct (utf8.continuation (N_of_ascii c2)).
      * rewrite IH' by (cbn; lia). done.
      * rewrite <- !append_cons. by rewrite IH'.
  - destruct t1 as [|c2 [|c3 t3]].
    + rewrite append_nil_l.
      change (String c1 (String c t)) with (String c1 EmptyString +:+ String c t).
      destruct t; rewrite ?Hcont; cbn [andb]; by rewrite IH'.
    + rewrite append_cons, append_nil_l, Hcont, andb_false_r.
      change (String c1 (String c2 (String c t)))
        with (String c1 (String c2 EmptyString) +:+ String c t).
      by rewrite IH'.
    + rewrite !append_cons.
      destruct (utf8.continuation (N_of_ascii c2) && utf8.continuation (N_of_ascii c3)).
      * rewrite IH' by (cbn; lia). done.
      * rewrite <- !append_cons. by rewrite IH'.
Qed.

Lemma first_range b0 sz lo hi :
  utf8.first b0 = Some (sz, lo, hi) →
  (hi ≤ 191)%N ∧
  ((sz = 2%nat ∧ 194 ≤ b0 ≤ 223 ∧ lo = 128)%N ∨
   (sz = 3%nat ∧ 224 ≤ b0 ≤ 239 ∧ 128 ≤ lo ∧ (b0 = 224 → lo = 160))%N ∨
   (sz = 4%nat ∧ 240 ≤ b0 ≤ 244 ∧ 128 ≤ lo ∧ (b0 = 240 → lo = 144))%N).
Proof.
  unfold utf8.first.
  repeat (case_match; [|]); try done; intros [= <- <- <-].
  all: repeat match goal with
       | H : (_ <? _)%N = true |- _ => apply N.ltb_lt in H
       | H : (_ <? _)%N = false |- _ => apply N.ltb_ge in H
       | H : (_ <=? _)%N = true |- _ => apply N.leb_le in H
       | H : (_ <=? _)%N = false |- _ => apply N.leb_gt in H
       | H : (_ =? _)%N = true |- _ => apply N.eqb_eq in H
       | H : (_ =? _)%N = false |- _ => apply N.eqb_neq in H
       end.
  all: lia.
Qed.

Lemma lor_not_newline a b :
  (4 ≤ N.log2 a)%N ∨ (4 ≤ N.log2 b)%N → N.lor a b ≠ newline.
Proof.
  intros H E. apply (f_equal N.log2) in E. rewrite N.log2_lor in E.
  change (N.log2 newline) with 3%N in E. lia.
Qed.

Lemma log2_shiftl_ge x k : x ≠ 0%N → (k ≤ N.log2 (N.shiftl x k))%N.
Proof. intros H. rewrite N.log2_shiftl by done. lia. Qed.

Lemma land_low b n : N.land b (N.ones n) = (b mod 2 ^ n)%N.
Proof. apply N.land_ones. Qed.

Lemma rune2_not_newline b0 b1 :
  (194 ≤ b0 ≤ 223)%N → utf8.rune2 b0 b1 ≠ newline.
Proof.
  intros H. unfold utf8.rune2. apply lor_not_newline. left.
  etrans; [|apply log2_shiftl_ge]; [lia|].
  change 31%N with (N.ones 5). rewrite land_low. change (2 ^ 5)%N with 32%N.
  intros E. pose proof (N.div_mod b0 32). lia.
Qed.


Lemma land63_nonzero b : (128 < b ≤ 191)%N → N.land b 63 ≠ 0%N.
Proof.
  intros H. change 63%N with (N.ones 6). rewrite land_low.
  change (2 ^ 6)%N with 64%N. intros E. pose proof (N.div_mod b 64). lia.
Qed.

Lemma rune3_not_newline b0 b1 b2 lo :
  (224 ≤ b0 ≤ 239)%N → (b0 = 224 → lo = 160)%N →
  (lo ≤ b1 ≤ 191)%N → (128 ≤ lo)%N → utf8.rune3 b0 b1 b2 ≠ newline.
Proof.
  intros H0 Hlo H1 H128. unfold utf8.rune3.
  apply lor_not_newline. left. rewrite N.log2_lor.
  destruct (decide (b0 = 224%N)) as [->|Hne].
  - etrans; [|apply N.le_max_r]. etrans; [|apply log2_shiftl_ge]; [lia|].
    apply land63_nonzero. lia.
  - etrans; [|apply N.le_max_l]. etrans; [|apply log2_shiftl_ge]; [lia|].
    change 15%N with (N.ones 4). rewrite land_low. change (2 ^ 4)%N with 16%N.
    intros E. pose proof (N.div_mod b0 16). lia.
Qed.

Lemma rune4_not_newline b0 b1 b2 b3 lo :
  (240 ≤ b0 ≤ 244)%N → (b0 = 240 → lo = 144)%N →
  (lo ≤ b1 ≤ 191)%N → (128 ≤ lo)%N → utf8.rune4 b0 b1 b2 b3 ≠ newline.
Proof.
  intros H0 Hlo H1 H128. unfold utf8.rune4.
  apply lor_not_newline. left. rewrite N.log2_lor.
  etrans; [|apply N.le_max_l]. rewrite N.log2_lor.
  destruct (decide (b0 = 240%N)) as [->|Hne].
  - etrans; [|apply N.le_max_r]. etrans; [|apply log2_shiftl_ge]; [lia|].
    apply land63_nonzero. lia.
  - etrans; [|apply N.le_max_l]. etrans; [|apply log2_shiftl_ge]; [lia|].
    change 7%N with (N.ones 3). rewrite land_low. change (2 ^ 3)%N with 8%N.
    intros E. pose proof (N.div_mod b0 8). lia.
Qed.

Lemma no_newline_cons c s :
  no_newline (String c s) = true ↔ N_of_ascii c ≠ newline ∧ no_newline s = true.
Proof.
  cbn [no_newline]. rewrite andb_true_iff, negb_true_iff, N.eqb_neq. done.
Qed.

(** Only the newline byte gives the newline character. *)
Lemma runes_no_newline s :
  no_newline s = true → Forall (λ c, c ≠ newline) (utf8.runes s).
Proof.
  assert (∀ n s, (String.length s ≤ n)%nat → no_newline s = true →
            Forall (λ c, c ≠ newline) (utf8.runes s)) as H;
    [|by apply (H (String.length s))].
  clear s. induction n as [|n IH]; intros s Hlen Hnl.
  { destruct s; [constructor|cbn in Hlen; lia]. }
  destruct s as [|c0 t0]; [constructor|].
  cbn [String.length] in Hlen.
  apply no_newline_cons in Hnl as [Hc0 Ht0].
  assert (Forall (λ c, c ≠ newline) (utf8.runes t0)) as IH0 by (apply IH; [lia|done]).
  assert (utf8.RuneError ≠ newline) as Herr by done.
  cbn [utf8.runes]. cbv zeta.
  destruct (N_of_ascii c0 <? 128)%N; [by constructor|].
  destruct (utf8.first (N_of_ascii c0)) as [[[sz lo] hi]|] eqn:Hfirst;
    [|by constructor].
  destruct t0 as [|c1 t1]; [by constructor|].
  cbn [String.length] in Hlen.
  pose proof Ht0 as Ht0'.
  apply no_newline_cons in Ht0' as [Hc1 Ht1].
  destruct (negb _) eqn:Hr; [by constructor|].
  apply negb_false_iff, andb_true_iff in Hr as [Hr1%N.leb_le Hr2%N.leb_le].
  assert (Forall (λ c, c ≠ newline) (utf8.runes t1)) as IH1 by (apply IH; [lia|done]).
  apply first_range in Hfirst
    as [Hhi [(-> & H0 & ->)|[(-> & H0 & H128 & Hlo)|(-> & H0 & H128 & Hlo)]]].
  - constructor; [by apply rune2_not_newline|done].
  - destruct t1 as [|c2 t2]; [by constructor|].
    cbn [String.length] in Hlen. apply no_newline_cons in Ht1 as [Hc2 Ht2].
    destruct (utf8.continuation (N_of_ascii c2)); [|by constructor].
    constructor; [|apply IH; [lia|done]].
    eapply rune3_not_newline; [done..|lia|done].
  - destruct t1 as [|c2 [|c3 t3]]; [by constructor..|].
    cbn [String.length] in Hlen. apply no_newline_cons in Ht1 as [Hc2 Ht2].
    apply no_newline_cons in Ht2 as [Hc3 Ht3].
    destruct (utf8.continuation (N_of_ascii c2) && utf8.continuation (N_of_ascii c3));
      [|by constructor].
    constructor; [|apply IH; [lia|done]].
    eapply rune4_not_newline; [done..|lia|done].
Qed.

Lemma runes_nonempty s : s ≠ EmptyString → utf8.runes s ≠ [].
Proof.
  destruct s as [|c0 t0]; [done|]. intros _.
  cbn [utf8.runes]. cbv zeta.
  repeat case_match; done.
Qed.

(** ** Package codeowners: [Ruleset.Match] *)

(** A pattern's match faults or answers; it never returns an error. *)
Lemma pattern_match_cases p path :
  pattern_match p path = None ∨ ∃ b, pattern_match p path = Some (b, None).
Proof. unfold pattern_match. repeat case_match; eauto. Qed.

Lemma Rule_Match_cases r path :
  Rule_Match r path = None ∨ ∃ b, Rule_Match r path = Some (b, None).
Proof. apply pattern_match_cases. Qed.

Lemma Match_from_last_none rev_rules path :
  (∀ r, r ∈ rev_rules → Rule_Match r path ≠ Some (true, None)) →
  Match_from_last rev_rules path = None ∨
  Match_from_last rev_rules path = Some (None, None).
Proof.
  induction rev_rules as [|rule earlier IH]; intros H; [by right|].
  cbn [Match_from_last].
  destruct (Rule_Match_cases rule path) as [->|[b Hb]]; [by left|].
  rewrite Hb. destruct b.
  - by destruct (H rule); [left|].
  - cbn. apply IH. intros r Hr. apply H. by right.
Qed.

Lemma Match_from_last_found later rule earlier path :
  (∀ r, r ∈ later → Rule_Match r path = Some (false, None)) →
  Rule_Match rule path = Some (true, None) →
  Match_from_last (later ++ rule :: earlier) path = Some (Some rule, None).
Proof.
  induction later as [|r later IH]; intros Hlater Hrule.
  - cbn [app Match_from_last]. by rewrite Hrule.
  - cbn [app Match_from_last]. rewrite (Hlater r) by left.
    cbn. apply IH; [|done]. intros r' Hr'. apply Hlater. by right.
Qed.

(** A fault of a rule that is reached is the fault of the whole match. *)
Lemma Match_from_last_fault later rule earlier path :
  (∀ r, r ∈ later → Rule_Match r path = Some (false, None)) →
  Rule_Match rule path = None →
  Match_from_last (later ++ rule :: earlier) path = None.
Proof.
  induction later as [|r later IH]; intros Hlater Hrule.
  - cbn [app Match_from_last]. by rewrite Hrule.
  - cbn [app Match_from_last]. rewrite (Hlater r) by left.
    cbn. apply IH; [|done]. intros r' Hr'. apply Hlater. by right.
Qed.

Lemma Match_none ruleset path :
  (∀ r, r ∈ ruleset → Rule_Match r path ≠ Some (true, None)) →
  Match ruleset path = None ∨ Match ruleset path = Some (None, None).
Proof.
  intros H. unfold Match. apply Match_from_last_none.
  intros r Hr. apply H. by apply elem_of_reverse.
Qed.

Lemma Match_last before rule after path :
  Rule_Match rule path = Some (true, None) →
  (∀ r, r ∈ after → Rule_Match r path = Some (false, None)) →
  Match (before ++ rule :: after) path = Some (Some rule, None).
Proof.
  intros Hrule Hafter. unfold Match.
  rewrite reverse_app, reverse_cons, <- app_assoc. cbn [app].
  apply Match_from_last_found; [|done].
  intros r Hr. apply Hafter. by apply elem_of_reverse.
Qed.

Lemma Match_fault before rule after path :
  Rule_Match rule path = None →
  (∀ r, r ∈ after → Rule_Match r path = Some (false, None)) →
  Match (before ++ rule :: after) path = None.
Proof.
  intros Hrule Hafter. unfold Match.
  rewrite reverse_app, reverse_cons, <- app_assoc. cbn [app].
  apply Match_from_last_fault; [|done].
  intros r Hr. apply Hafter. by apply elem_of_reverse.
Qed.

(** Among rules that all answer, a matching rule has a last one. *)
Lemma last_matching_rule (ruleset : Ruleset) path :
  (∀ r, r ∈ ruleset → Rule_Match r path ≠ None) →
  (∃ r, r ∈ ruleset ∧ Rule_Match r path = Some (true, None)) →
  ∃ before rule after,
    ruleset = before ++ rule :: after ∧
    Rule_Match rule path = Some (true, None) ∧
    ∀ r, r ∈ after → Rule_Match r path = Some (false, None).
Proof.
  induction ruleset as [|x init IH] using rev_ind; intros Hall (r & Hr & Hm).
  - by apply elem_of_nil in Hr.
  - destruct (Rule_Match_cases x path) as [Hx|[[] Hx]].
    + destruct (Hall x); [|done]. apply elem_of_app. right. left.
    + exists init, x, []. split_and!; [done..|]. by intros ? ?%elem_of_nil.
    + apply elem_of_app in Hr as [Hr|Hr%list_elem_of_singleton]; [|congruence].
      destruct IH as (before & rule & after & -> & Hrule & Hafter).
      { intros r' Hr'. apply Hall. apply elem_of_app. by left. }
      { by exists r. }
      exists before, rule, (after ++ [x]). split_and!.
      * by rewrite <- app_assoc.
      * done.
      * intros r' [?|Hr']%elem_of_app; [auto|].
        apply list_elem_of_singleton in Hr'. by subst.
Qed.

(** ** Shape of the events *)

Lemma match_files_events M ruleset files m :
  post (match_files M ruleset files m)
    (λ es o, Forall report_event es ∧ ∀ s, o = inr s → s = Panic).
Proof.
  revert m. induction files as [|file rest IH]; intros m.
  - unfold post; cbn. split; [constructor|done].
  - cbn [match_files]. apply post_call.
    destruct (M ruleset file) as [[rule err]|]; cbn [fst snd].
    + destruct err as [err|]; [|destruct rule as [rule|]].
      * apply post_emit. eapply post_mono; [apply IH|].
        intros es o [? ?]. split; [|done]. by repeat constructor.
      * eapply post_mono; [apply IH|].
        intros es o [? ?]. split; [|done]. by repeat constructor.
      * unfold post; cbn. split; [by repeat constructor|]. by intros s [= <-].
    + unfold post; cbn. split; [by repeat constructor|]. by intros s [= <-].
Qed.

Lemma report_events M sched ruleset patch :
  Forall report_event (events (report M sched ruleset patch)) ∧
  (outcome (report M sched ruleset patch) = inl tt ∨
   outcome (report M sched ruleset patch) = inr Panic).
Proof.
  change (post (report M sched ruleset patch)
            (λ es o, Forall report_event es ∧ (o = inl tt ∨ o = inr Panic))).
  unfold report. apply post_bind.
  eapply post_mono; [apply match_files_events|].
  intros es [m'|s] [Hes Hs].
  - unfold post. cbn [events outcome print_report]. split; [|by left].
    apply Forall_app. split; [done|].
    destruct (print_report_spec
                (range (order_print sched)
                   (owner_files (range (order_invert sched) m') m'))
                (owner_files (range (order_invert sched) m') m'))
      as (_ & _ & Hall & _).
    eapply Forall_impl; [apply Hall|]. by intros e [line ->].
  - split; [done|]. right. f_equal. by apply Hs.
Qed.

(** The report phase makes no call into go-git. *)
Lemma report_events_no_git es :
  Forall report_event es →
  tree_calls es = [] ∧ diff_calls es = [] ∧ merge_base_calls es = [] ∧
  reference_calls es = [] ∧ without_master_lookup es = es.
Proof.
  induction 1 as [|e es He _ IH]; [done|].
  destruct IH as (IH1 & IH2 & IH3 & IH4 & IH5).
  unfold tree_calls, diff_calls, merge_base_calls, reference_calls,
    without_master_lookup in *.
  destruct e; try done; cbn [omap list_omap];
    by rewrite ?IH1, ?IH2, ?IH3, ?IH4, ?IH5.
Qed.

Lemma report_no_git_calls M sched ruleset patch :
  tree_calls (events (report M sched ruleset patch)) = [] ∧
  diff_calls (events (report M sched ruleset patch)) = [] ∧
  merge_base_calls (events (report M sched ruleset patch)) = [].
Proof.
  destruct (report_events M sched ruleset patch) as [H _].
  apply report_events_no_git in H. tauto.
Qed.

(** [setup] matches no file; when it stops it has logged exactly one
    error, as its last act, and when it returns it has logged none. *)
Lemma setup_logs env :
  matched_files (events (setup env)) = [] ∧
  match outcome (setup env) with
  | inl _ => error_logs (events (setup env)) = []
  | inr _ => ∃ msg, error_logs (events (setup env)) = [msg] ∧
                    last (events (setup env)) = Some (Log Error msg)
  end.
Proof.
  change (post (setup env)
            (λ es o, matched_files es = [] ∧
               match o with
               | inl _ => error_logs es = []
               | inr _ => ∃ msg, error_logs es = [msg] ∧
                                 last es = Some (Log Error msg)
               end)).
  unfold setup. repeat mstep.
  all: split; [done|]; try done.
  all: by eexists.
Qed.

Lemma matched_files_app es1 es2 :
  matched_files (es1 ++ es2) = matched_files es1 ++ matched_files es2.
Proof. apply omap_app. Qed.

Lemma error_logs_app es1 es2 :
  error_logs (es1 ++ es2) = error_logs es1 ++ error_logs es2.
Proof. apply omap_app. Qed.

Lemma tree_calls_app es1 es2 :
  tree_calls (es1 ++ es2) = tree_calls es1 ++ tree_calls es2.
Proof. apply omap_app. Qed.

Lemma diff_calls_app es1 es2 :
  diff_calls (es1 ++ es2) = diff_calls es1 ++ diff_calls es2.
Proof. apply omap_app. Qed.

Lemma merge_base_calls_app es1 es2 :
  merge_base_calls (es1 ++ es2) = merge_base_calls es1 ++ merge_base_calls es2.
Proof. apply omap_app. Qed.

Lemma reference_calls_app es1 es2 :
  reference_calls (es1 ++ es2) = reference_calls es1 ++ reference_calls es2.
Proof. apply omap_app. Qed.

Lemma without_master_lookup_app es1 es2 :
  without_master_lookup (es1 ++ es2) =
    without_master_lookup es1 ++ without_master_lookup es2.
Proof. apply omap_app. Qed.

Lemma main_with_events M sched env ruleset patch :
  prepared env ruleset patch →
  events (main_with M sched env) =
    events (setup env) ++ events (report M sched ruleset patch).
Proof.
  intros Hp%setup_prepared. unfold main_with. by rewrite (bind_go _ _ _ Hp).
Qed.

(** The calls into go-git of a run are those of [setup]. *)
Lemma main_with_git_calls M sched env :
  merge_base_calls (events (main_with M sched env)) =
    merge_base_calls (events (setup env)) ∧
  tree_calls (events (main_with M sched env)) = tree_calls (events (setup env)) ∧
  diff_calls (events (main_with M sched env)) = diff_calls (events (setup env)) ∧
  reference_calls (events (main_with M sched env)) =
    reference_calls (events (setup env)).
Proof.
  destruct (main_with_cases M sched env) as [(ruleset & patch & Hp)| ->]; [|done].
  rewrite (main_with_events M sched env ruleset patch Hp).
  rewrite merge_base_calls_app, tree_calls_app, diff_calls_app, reference_calls_app.
  destruct (report_events M sched ruleset patch) as [H _].
  apply report_events_no_git in H as (-> & -> & -> & -> & _).
  by rewrite !app_nil_r.
Qed.

(** A run in which [setup] stops is the run of [setup]. *)
Lemma main_with_setup_stops M sched env :
  outcome (setup env) = inr (Exit 1) →
  main_with M sched env = mkM (events (setup env)) (inr (Exit 1)).
Proof. intros H. unfold main_with. by rewrite (bind_stop _ _ _ H). Qed.

(** ** Lines 38-77 in a run that gets there *)

(** What [setup] does about the mainline once HEAD is on a branch. *)
Lemma setup_on_branch env :
  on_branch env →
  (repo_Branch env "main" ≠ Err ErrBranchNotFound →
     branch_lookups (events (setup env)) = ["main"]) ∧
  (repo_Branch env "main" = Err ErrBranchNotFound →
     branch_lookups (events (setup env)) = ["main"; "master"]) ∧
  (∀ mb, repo_Branch env "main" = Ok mb →
     reference_calls (events (setup env)) = [(Merge mb, true)]) ∧
  (∀ mb, repo_Branch env "main" = Err ErrBranchNotFound →
     repo_Branch env "master" = Ok mb →
     reference_calls (events (setup env)) = [(Merge mb, true)]) ∧
  (∀ e, repo_Branch env "main" = Err ErrBranchNotFound →
     repo_Branch env "master" = Err e →
     outcome (setup env) = inr (Exit 1) ∧
     last (events (setup env)) = Some (Log Error "Error finding main branch.") ∧
     reference_calls (events (setup env)) = [] ∧
     Forall (λ e, diff_work e = false) (events (setup env))).
Proof.
  intros (text & ruleset & u & cur & H1 & H2 & H3 & H4 & H5).
  change (post (setup env) (λ es o,
    (repo_Branch env "main" ≠ Err ErrBranchNotFound →
       branch_lookups es = ["main"]) ∧
    (repo_Branch env "main" = Err ErrBranchNotFound →
       branch_lookups es = ["main"; "master"]) ∧
    (∀ mb, repo_Branch env "main" = Ok mb →
       reference_calls es = [(Merge mb, true)]) ∧
    (∀ mb, repo_Branch env "main" = Err ErrBranchNotFound →
       repo_Branch env "master" = Ok mb →
       reference_calls es = [(Merge mb, true)]) ∧
    (∀ e, repo_Branch env "main" = Err ErrBranchNotFound →
       repo_Branch env "master" = Err e →
       o = inr (Exit 1) ∧
       last es = Some (Log Error "Error finding main branch.") ∧
       reference_calls es = [] ∧
       Forall (λ e, diff_work e = false) es))).
  unfold setup. repeat mstep.
  all: rewrite ?errors_Is_spec, ?errors_Is_false in *.
  all: try congruence.
  all: split_and!; intros; first [done | congruence | by repeat constructor].
Qed.

(** What [setup] does about the merge base once both commits are there. *)
Lemma setup_merge_base env cc mc bases :
  commits_found env cc mc → commit_MergeBase env cc mc = Ok bases →
  merge_base_calls (events (setup env)) = [(cc, mc)] ∧
  match bases with
  | [] =>
      outcome (setup env) = inr (Exit 1) ∧
      last (events (setup env)) = Some (Log Error "Could not find merge base.") ∧
      tree_calls (events (setup env)) = [] ∧
      diff_calls (events (setup env)) = []
  | b :: _ =>
      tree_calls (events (setup env)) =
        match commit_Tree env b with Ok _ => [b; cc] | Err _ => [b] end ∧
      diff_calls (events (setup env)) =
        match commit_Tree env b, commit_Tree env cc with
        | Ok bt, Ok ct => [(bt, ct)]
        | _, _ => []
        end
  end.
Proof.
  intros (text & ruleset & u & cur & mb & mref &
          H1 & H2 & H3 & H4 & H5 & H6 & H7 & H8 & H9) Hmb.
  change (post (setup env) (λ es o,
    merge_base_calls es = [(cc, mc)] ∧
    match bases with
    | [] =>
        o = inr (Exit 1) ∧
        last es = Some (Log Error "Could not find merge base.") ∧
        tree_calls es = [] ∧ diff_calls es = []
    | b :: _ =>
        tree_calls es =
          match commit_Tree env b with Ok _ => [b; cc] | Err _ => [b] end ∧
        diff_calls es =
          match commit_Tree env b, commit_Tree env cc with
          | Ok bt, Ok ct => [(bt, ct)]
          | _, _ => []
          end
    end)).
  unfold setup. repeat mstep.
  all: rewrite ?errors_Is_spec, ?errors_Is_false in *.
  all: try congruence.
  all: destruct H6 as [H6|[H6 H6']]; try congruence.
  all: repeat match goal with
         | H : ?x = Ok _, H' : ?x = Ok _ |- _ =>
             rewrite H in H'; injection H' as ?; subst
         end.
  all: repeat match goal with
         | H : commit_Tree _ _ = _ |- _ => rewrite H
         end.
  all: done.
Qed.

(** Only the first merge base is looked at. *)
Lemma setup_first_base env cc mc b rest :
  commits_found env cc mc → commit_MergeBase env cc mc = Ok (b :: rest) →
  setup env = setup (with_MergeBase env (λ _ _, Ok [b])).
Proof.
  intros (text & ruleset & u & cur & mb & mref &
          H1 & H2 & H3 & H4 & H5 & H6 & H7 & H8 & H9) Hmb.
  unfold setup, loadRuleset.
  cbn [with_MergeBase os_Open codeowners_ParseFile git_PlainOpen repo_Head
       repo_Branch repo_Reference repo_CommitObject commit_MergeBase
       commit_Tree tree_Diff changes_Patch].
  rewrite H1; cbn. rewrite H2; cbn. rewrite H3; cbn. rewrite H4; cbn.
  rewrite H5; cbn.
  destruct H6 as [H6|[H6 H6']]; rewrite H6; cbn; rewrite ?H6'; cbn.
  all: rewrite H7; cbn; rewrite H8; cbn; rewrite H9; cbn; rewrite Hmb; cbn.
  all: done.
Qed.

(** The patch of a run that reaches the report is the one between the
    first merge base and HEAD. *)
Lemma prepared_patch env cc mc b rest ruleset patch :
  commits_found env cc mc → commit_MergeBase env cc mc = Ok (b :: rest) →
  prepared env ruleset patch →
  ∃ bt ct d,
    commit_Tree env b = Ok bt ∧ commit_Tree env cc = Ok ct ∧
    tree_Diff env bt ct = Ok d ∧ changes_Patch env d = Ok patch.
Proof.
  intros (text & rs & u & cur & mb & mref &
          H1 & H2 & H3 & H4 & H5 & H6 & H7 & H8 & H9) Hmb.
  intros (text' & cur' & mb' & mref' & mc' & cc' & b' & bases' & bt & ct & d &
          G1 & G2 & G3 & G4 & G5 & G6 & G7 & G8 & G9 & G10 & G11 & G12 & G13 & G14).
  assert (cur' = cur) as -> by congruence.
  assert (mb' = mb) as ->
    by (destruct H6 as [?|[? ?]], G6 as [?|[? ?]]; congruence).
  assert (mref' = mref) as -> by congruence.
  assert (mc' = mc) as -> by congruence.
  assert (cc' = cc) as -> by congruence.
  assert (b' = b) as -> by congruence.
  by exists bt, ct, d.
Qed.

(** * The claims *)

(** C5. The changed paths are exactly the old and new paths of the file
    patches: one path for a modification, the new path for an added file,
    the old path for a deleted file, both paths for a rename; and they
    form a set: a loop over them meets every path once, however many
    patches touch it. *)
Theorem changed_paths_are_patch_paths (patches : list FilePatch) :
  (∀ p, p ∈ dom (changed_paths patches) ↔
        ∃ fp, fp ∈ patches ∧ p ∈ patch_paths fp) ∧
  (∀ f, {| fp_from := Some f; fp_to := Some f |} ∈ patches →
        Path f ∈ dom (changed_paths patches)) ∧
  (∀ new, {| fp_from := None; fp_to := Some new |} ∈ patches →
        Path new ∈ dom (changed_paths patches)) ∧
  (∀ old, {| fp_from := Some old; fp_to := None |} ∈ patches →
        Path old ∈ dom (changed_paths patches)) ∧
  (∀ old new, {| fp_from := Some old; fp_to := Some new |} ∈ patches →
        Path old ∈ dom (changed_paths patches) ∧
        Path new ∈ dom (changed_paths patches)) ∧
  (∀ order, (∀ l, order l ≡ₚ l) → NoDup (range order (changed_paths patches))).
Proof.
  split_and!.
  - apply elem_of_changed_paths.
  - intros f Hin. apply elem_of_changed_paths. eexists. split; [done|].
    cbn. left.
  - intros new Hin. apply elem_of_changed_paths. eexists. split; [done|].
    cbn. left.
  - intros old Hin. apply elem_of_changed_paths. eexists. split; [done|].
    cbn. left.
  - intros old new Hin. split; apply elem_of_changed_paths; eexists.
    + split; [done|]. cbn. left.
    + split; [done|]. cbn. right. left.
  - intros order Horder. by apply range_NoDup.
Qed.

Lemma changed_paths_are_patch_paths_witness :
  renamed "old.go" "new.go" ∈ [renamed "old.go" "new.go"; modified "new.go"] ∧
  "old.go" ∈ dom (changed_paths [renamed "old.go" "new.go"; modified "new.go"]) ∧
  "new.go" ∈ dom (changed_paths [renamed "old.go" "new.go"; modified "new.go"]) ∧
  NoDup (range reverse (changed_paths [renamed "old.go" "new.go"; modified "new.go"])).
Proof.
  destruct (changed_paths_are_patch_paths
              [renamed "old.go" "new.go"; modified "new.go"])
    as (_ & _ & _ & _ & Hrename & Hset).
  assert (renamed "old.go" "new.go" ∈ [renamed "old.go" "new.go"; modified "new.go"])
    as Hin by left.
  split; [exact Hin|].
  destruct (Hrename {| Path := "old.go" |} {| Path := "new.go" |} Hin) as [Hold Hnew].
  split; [exact Hold|]. split; [exact Hnew|].
  apply Hset. intros l. apply reverse_Permutation.
Defined.

(** C6. In a run that gets as far as the merge base, the merge base is
    asked for once, of the commit of HEAD with the mainline commit.  When
    the answer is empty the run exits with status 1 after the log line
    "Could not find merge base.": nothing is printed, no tree is read,
    nothing is compared and no file is matched.  When the answer has
    several commits the first one is used: its tree is the first tree
    read, the only other tree read is that of HEAD, the one comparison goes
    from its tree to the tree of HEAD, the patch that is reported is the
    patch of that comparison, and the run is the run in which the answer
    is the first commit alone. *)
Theorem merge_base_none_or_first M sched env cc mc bases :
  commits_found env cc mc →
  commit_MergeBase env cc mc = Ok bases →
  merge_base_calls (events (main_with M sched env)) = [(cc, mc)] ∧
  match bases with
  | [] =>
      outcome (main_with M sched env) = inr (Exit 1) ∧
      exit_code (main_with M sched env) = 1%Z ∧
      stdout (main_with M sched env) = [] ∧
      last (events (main_with M sched env)) =
        Some (Log Error "Could not find merge base.") ∧
      tree_calls (events (main_with M sched env)) = [] ∧
      diff_calls (events (main_with M sched env)) = [] ∧
      matched_files (events (main_with M sched env)) = []
  | b :: _ =>
      tree_calls (events (main_with M sched env)) =
        match commit_Tree env b with Ok _ => [b; cc] | Err _ => [b] end ∧
      diff_calls (events (main_with M sched env)) =
        match commit_Tree env b, commit_Tree env cc with
        | Ok bt, Ok ct => [(bt, ct)]
        | _, _ => []
        end ∧
      (∀ ruleset patch,
         prepared env ruleset patch →
         ∃ bt ct d,
           commit_Tree env b = Ok bt ∧ commit_Tree env cc = Ok ct ∧
           tree_Diff env bt ct = Ok d ∧ changes_Patch env d = Ok patch) ∧
      main_with M sched env =
        main_with M sched (with_MergeBase env (λ _ _, Ok [b]))
  end.
Proof.
  intros Hc Hmb.
  destruct (main_with_git_calls M sched env) as (-> & -> & -> & _).
  destruct (setup_merge_base env cc mc bases Hc Hmb) as [Hcalls Hbases].
  split; [done|]. destruct bases as [|b rest].
  - destruct Hbases as (Hout & Hlast & Htree & Hdiff).
    rewrite (main_with_setup_stops M sched env Hout).
    unfold exit_code, stdout. cbn [events outcome].
    split_and!; [done|done|apply setup_run|done|done|done|apply setup_logs].
  - destruct Hbases as [Htree Hdiff]. split_and!; [done|done| |].
    + intros ruleset patch. by apply (prepared_patch env cc mc b rest).
    + unfold main_with. by rewrite (setup_first_base env cc mc b rest Hc Hmb).
Qed.

Lemma merge_base_none_or_first_witness :
  (commits_found env_no_base {| commit_Hash := "c2" |} {| commit_Hash := "c1" |} ∧
   commit_MergeBase env_no_base {| commit_Hash := "c2" |} {| commit_Hash := "c1" |}
     = Ok [] ∧
   exit_code (main_with Match forward env_no_base) = 1%Z ∧
   stdout (main_with Match forward env_no_base) = [] ∧
   tree_calls (events (main_with Match forward env_no_base)) = []) ∧
  (commits_found env_criss_cross
     {| commit_Hash := "c2" |} {| commit_Hash := "c1" |} ∧
   commit_MergeBase env_criss_cross
     {| commit_Hash := "c2" |} {| commit_Hash := "c1" |} = Ok two_bases ∧
   tree_calls (events (main_with Match forward env_criss_cross)) =
     [{| commit_Hash := "c0" |}; {| commit_Hash := "c2" |}] ∧
   diff_calls (events (main_with Match forward env_criss_cross)) =
     [({| tree_Hash := "c0" |}, {| tree_Hash := "c2" |})]).
Proof.
  assert (commits_found env_no_base
            {| commit_Hash := "c2" |} {| commit_Hash := "c1" |}) as H0.
  { unfold commits_found. repeat eexists; try reflexivity. by left. }
  assert (commits_found env_criss_cross
            {| commit_Hash := "c2" |} {| commit_Hash := "c1" |}) as H2.
  { unfold commits_found. repeat eexists; try reflexivity. by left. }
  split.
  - split; [exact H0|]. split; [reflexivity|].
    destruct (merge_base_none_or_first Match forward env_no_base _ _ [] H0 eq_refl)
      as (_ & _ & Hexit & Hout & _ & Htree & _).
    exact (conj Hexit (conj Hout Htree)).
  - split; [exact H2|]. split; [reflexivity|].
    destruct (merge_base_none_or_first Match forward env_criss_cross _ _
                two_bases H2 eq_refl)
      as (_ & Htree & Hdiff & _).
    exact (conj Htree Hdiff).
Defined.

(** C7. The branch [main] is looked up first, and [master] only after the
    lookup of [main] said that the branch was not found: a run looks up no
    branch, or [main], or [main] and then [master].  A run that finds the
    ruleset, the repository and HEAD on a branch does look up [main], and
    [master] as well exactly when [main] is not found; the branch that is
    found, be it [main] or [master], is the one whose upstream reference
    is resolved next.  When neither is found the run exits with status 1
    after the log line "Error finding main branch.", prints nothing,
    resolves no reference and makes no call of the tree comparison. *)
Theorem mainline_main_then_master M sched env :
  let run := main_with M sched env in
  let looked := branch_lookups (events run) in
  (looked = [] ∨ looked = ["main"] ∨ looked = ["main"; "master"]) ∧
  (looked = ["main"] → repo_Branch env "main" ≠ Err ErrBranchNotFound) ∧
  (looked = ["main"; "master"] → repo_Branch env "main" = Err ErrBranchNotFound) ∧
  (repo_Branch env "main" = Err ErrBranchNotFound →
   repo_Branch env "master" = Err ErrBranchNotFound →
   exit_code run = 1%Z ∧ stdout run = [] ∧
   Forall (λ e, diff_work e = false) (events run)) ∧
  (on_branch env →
   (repo_Branch env "main" ≠ Err ErrBranchNotFound → looked = ["main"]) ∧
   (repo_Branch env "main" = Err ErrBranchNotFound →
    looked = ["main"; "master"]) ∧
   (∀ mb, repo_Branch env "main" = Ok mb →
          reference_calls (events run) = [(Merge mb, true)]) ∧
   (∀ mb, repo_Branch env "main" = Err ErrBranchNotFound →
          repo_Branch env "master" = Ok mb →
          reference_calls (events run) = [(Merge mb, true)]) ∧
   (∀ e, repo_Branch env "main" = Err ErrBranchNotFound →
         repo_Branch env "master" = Err e →
         exit_code run = 1%Z ∧ stdout run = [] ∧
         last (events run) = Some (Log Error "Error finding main branch.") ∧
         reference_calls (events run) = [] ∧
         Forall (λ e, diff_work e = false) (events run))).
Proof.
  cbn zeta. rewrite main_with_branch_lookups.
  destruct (main_with_git_calls M sched env) as (_ & _ & _ & ->).
  destruct (setup_run env) as (Hq & _ & Hl). split_and!.
  - destruct Hl as [->|[[-> _]|[-> _]]]; auto.
  - intros E. destruct Hl as [H|[[_ H]|[H _]]]; [congruence|done|congruence].
  - intros E. destruct Hl as [H|[[H _]|[_ H]]]; [congruence|congruence|done].
  - intros Hmain Hmaster.
    destruct (setup_no_mainline env Hmain Hmaster) as [Hout Hall].
    unfold main_with. rewrite (bind_stop _ _ _ Hout).
    unfold exit_code, stdout. by cbn [events outcome].
  - intros Hb.
    destruct (setup_on_branch env Hb) as (H1 & H2 & H3 & H4 & H5).
    split_and!; [done..|].
    intros e Hmain Hmaster.
    destruct (H5 e Hmain Hmaster) as (Hout & Hlast & Href & Hall).
    rewrite (main_with_setup_stops M sched env Hout).
    unfold exit_code, stdout. by cbn [events outcome].
Qed.

Lemma mainline_main_then_master_witness :
  (on_branch env_master ∧
   repo_Branch env_master "main" = Err ErrBranchNotFound ∧
   repo_Branch env_master "master" = Ok master_branch ∧
   branch_lookups (events (main_with Match forward env_master)) =
     ["main"; "master"] ∧
   reference_calls (events (main_with Match forward env_master)) =
     [("refs/heads/master", true)]) ∧
  (on_branch env_no_mainline ∧
   repo_Branch env_no_mainline "main" = Err ErrBranchNotFound ∧
   repo_Branch env_no_mainline "master" = Err ErrBranchNotFound ∧
   exit_code (main_with Match forward env_no_mainline) = 1%Z ∧
   stdout (main_with Match forward env_no_mainline) = [] ∧
   last (events (main_with Match forward env_no_mainline)) =
     Some (Log Error "Error finding main branch.")).
Proof.
  assert (on_branch env_master) as Hm.
  { unfold on_branch. repeat eexists; reflexivity. }
  assert (on_branch env_no_mainline) as Hn.
  { unfold on_branch. repeat eexists; reflexivity. }
  split.
  - split; [exact Hm|]. split; [reflexivity|]. split; [reflexivity|].
    destruct (mainline_main_then_master Match forward env_master)
      as (_ & _ & _ & _ & Hrun).
    destruct (Hrun Hm) as (_ & Hlooked & _ & Href & _).
    split; [exact (Hlooked eq_refl)|].
    exact (Href master_branch eq_refl eq_refl).
  - split; [exact Hn|]. split; [reflexivity|]. split; [reflexivity|].
    destruct (mainline_main_then_master Match forward env_no_mainline)
      as (_ & _ & _ & _ & Hrun).
    destruct (Hrun Hn) as (_ & _ & _ & _ & Hnone).
    destruct (Hnone ErrBranchNotFound eq_refl eq_refl)
      as (Hexit & Hout & Hlast & _).
    exact (conj Hexit (conj Hout Hlast)).
Defined.

(** C10. When the lookup of [main] fails with an error other than "branch
    not found", [master] is not looked up and the run exits with status 1. *)
Theorem main_lookup_error_is_fatal M sched env e :
  e ≠ ErrBranchNotFound → repo_Branch env "main" = Err e →
  ("master" ∉ branch_lookups (events (main_with M sched env))) ∧
  exit_code (main_with M sched env) = 1%Z.
Proof.
  intros He Hmain. rewrite main_with_branch_lookups.
  destruct (setup_main_error env e He Hmain) as [Hout Hno].
  split; [done|]. unfold main_with. by rewrite (bind_stop _ _ _ Hout).
Qed.

Lemma main_lookup_error_is_fatal_witness :
  ErrOther "config unreadable" ≠ ErrBranchNotFound ∧
  repo_Branch env_unreadable "main" = Err (ErrOther "config unreadable") ∧
  ("master" ∉ branch_lookups (events (main_with Match forward env_unreadable))) ∧
  exit_code (main_with Match forward env_unreadable) = 1%Z.
Proof.
  split; [discriminate|]. split; [reflexivity|].
  apply (main_lookup_error_is_fatal Match forward env_unreadable
           (ErrOther "config unreadable")); [discriminate|reflexivity].
Defined.

(** C1. A changed path that no rule of the ruleset matches stops the run:
    [Ruleset.Match] returns neither a rule nor an error for it (if it
    returns at all), the matching loop dereferences the nil rule, and the
    process ends in a panic (status 2) before anything is printed. *)
Theorem unmatched_path_panics sched env ruleset patch p :
  admissible sched → prepared env ruleset patch →
  p ∈ dom (changed_paths patch) →
  (∀ r, r ∈ ruleset → Rule_Match r p ≠ Some (true, None)) →
  outcome (main sched env) = inr Panic ∧
  exit_code (main sched env) = 2%Z ∧
  stdout (main sched env) = [].
Proof.
  intros Hs Hp Hin Hno. unfold main.
  destruct (main_with_prepared Match sched env ruleset patch Hp) as (Ho & Hout & _).
  assert (faults Match ruleset patch) as Hf.
  { exists p. split; [done|]. by destruct (Match_none ruleset p Hno) as [-> | ->]. }
  destruct (report_faults Match sched ruleset patch Hs Hf) as (Hpanic & Hquiet & _).
  unfold exit_code. rewrite Ho, Hout, Hpanic. done.
Qed.

Lemma unmatched_path_panics_witness :
  admissible backward ∧
  prepared env_unmatched (rules [("*.go", ["gophers"])])
    [modified "README.md"; modified "main.go"] ∧
  "README.md" ∈ dom (changed_paths [modified "README.md"; modified "main.go"]) ∧
  (∀ r, r ∈ rules [("*.go", ["gophers"])] →
        Rule_Match r "README.md" = Some (false, None)) ∧
  outcome (main backward env_unmatched) = inr Panic ∧
  exit_code (main backward env_unmatched) = 2%Z ∧
  stdout (main backward env_unmatched) = [].
Proof.
  assert (∀ r, r ∈ rules [("*.go", ["gophers"])] →
               Rule_Match r "README.md" = Some (false, None)) as Hno.
  { intros r Hr. vm_compute in Hr. apply list_elem_of_singleton in Hr.
    subst r. vm_compute. reflexivity. }
  assert ("README.md" ∈ dom (changed_paths [modified "README.md"; modified "main.go"]))
    as Hin.
  { apply elem_of_changed_paths. exists (modified "README.md").
    split; [left|]. vm_compute. left. }
  split; [apply admissible_backward|]. split; [apply sample_prepared|].
  split; [exact Hin|]. split; [exact Hno|].
  apply (unmatched_path_panics backward env_unmatched
           (rules [("*.go", ["gophers"])])
           [modified "README.md"; modified "main.go"] "README.md"
           admissible_backward (sample_prepared _ _) Hin).
  intros r Hr. rewrite (Hno r Hr). discriminate.
Defined.

(** C8. In the printed report no owner has two blocks, no block lists a
    path twice, and a block lists exactly the changed paths for which its
    owner was found.  The owners with a block are exactly the owners found
    for some changed path when the run returns, and it returns exactly
    when every changed path gets a rule or an error from the matcher.
    When some changed path gets neither (or the matcher faults), the run
    panics and prints no block at all, whatever owners were found for the
    other paths. *)
Theorem report_owners_and_paths_once M sched env ruleset patch :
  admissible sched → prepared env ruleset patch →
  stdout (main_with M sched env) = render (report_blocks M sched ruleset patch) ∧
  NoDup (report_blocks M sched ruleset patch).*1 ∧
  (∀ o fs, (o, fs) ∈ report_blocks M sched ruleset patch →
     NoDup fs ∧
     ∀ f, f ∈ fs ↔
          f ∈ dom (changed_paths patch) ∧
          ∃ rule, M ruleset f = Some (Some rule, None) ∧
                  o ∈ Owner_String <$> Owners rule) ∧
  (outcome (main_with M sched env) = inl tt →
     ∀ o, o ∈ (report_blocks M sched ruleset patch).*1 ↔
          ∃ f rule, f ∈ dom (changed_paths patch) ∧
                    M ruleset f = Some (Some rule, None) ∧
                    o ∈ Owner_String <$> Owners rule) ∧
  (outcome (main_with M sched env) = inl tt ↔ ¬ faults M ruleset patch) ∧
  (faults M ruleset patch →
     outcome (main_with M sched env) = inr Panic ∧
     exit_code (main_with M sched env) = 2%Z ∧
     report_blocks M sched ruleset patch = [] ∧
     stdout (main_with M sched env) = []).
Proof.
  intros Hs Hp.
  destruct (printed_report_spec M sched env ruleset patch Hs Hp)
    as (H1 & H2 & H3 & H4).
  split_and!; [done..| |].
  - destruct (main_with_prepared M sched env ruleset patch Hp) as (-> & _ & _).
    split.
    + intros Hret Hf.
      destruct (report_faults M sched ruleset patch Hs Hf) as (Hpanic & _).
      congruence.
    + intros Hno. by destruct (report_returns M sched ruleset patch Hs Hno).
  - intros Hf.
    destruct (main_with_prepared M sched env ruleset patch Hp) as (Ho & Hout & _).
    destruct (report_faults M sched ruleset patch Hs Hf)
      as (Hpanic & Hquiet & _ & Hblocks).
    unfold exit_code. rewrite Ho, Hout, Hpanic. done.
Qed.

Lemma report_owners_and_paths_once_witness :
  admissible forward ∧
  prepared env_unmatched (rules [("*.go", ["gophers"])])
    [modified "README.md"; modified "main.go"] ∧
  "main.go" ∈ dom (changed_paths [modified "README.md"; modified "main.go"]) ∧
  (∃ rule, Match (rules [("*.go", ["gophers"])]) "main.go" = Some (Some rule, None) ∧
           "@gophers" ∈ Owner_String <$> Owners rule) ∧
  faults Match (rules [("*.go", ["gophers"])])
    [modified "README.md"; modified "main.go"] ∧
  outcome (main_with Match forward env_unmatched) = inr Panic ∧
  report_blocks Match forward (rules [("*.go", ["gophers"])])
    [modified "README.md"; modified "main.go"] = [] ∧
  stdout (main_with Match forward env_unmatched) = [].
Proof.
  assert ("main.go" ∈ dom (changed_paths [modified "README.md"; modified "main.go"]))
    as Hin.
  { apply elem_of_changed_paths. exists (modified "main.go").
    split; [right; left|]. vm_compute. left. }
  assert (faults Match (rules [("*.go", ["gophers"])])
            [modified "README.md"; modified "main.go"]) as Hf.
  { exists "README.md". split; [|vm_compute; reflexivity].
    apply elem_of_changed_paths. exists (modified "README.md").
    split; [left|]. vm_compute. left. }
  split; [apply admissible_forward|]. split; [apply sample_prepared|].
  split; [exact Hin|].
  split; [eexists; split; [vm_compute; reflexivity|vm_compute; left]|].
  split; [exact Hf|].
  destruct (report_owners_and_paths_once Match forward env_unmatched
              (rules [("*.go", ["gophers"])])
              [modified "README.md"; modified "main.go"]
              admissible_forward (sample_prepared _ _))
    as (_ & _ & _ & _ & _ & Hfault).
  destruct (Hfault Hf) as (Hpanic & _ & Hblocks & Hout).
  exact (conj Hpanic (conj Hblocks Hout)).
Defined.

(** C9. A changed path whose rule comes back with an empty owner list is
    listed in no block of the report, and it does not stop the run: if no
    other changed path is left without rule and error, the run returns
    and every changed path is listed under each owner of its rule. *)
Theorem ownerless_rule_lists_nothing M sched env ruleset patch p rule :
  admissible sched → prepared env ruleset patch →
  p ∈ dom (changed_paths patch) →
  M ruleset p = Some (Some rule, None) → Owners rule = [] →
  stdout (main_with M sched env) = render (report_blocks M sched ruleset patch) ∧
  (∀ o fs, (o, fs) ∈ report_blocks M sched ruleset patch → p ∉ fs) ∧
  ((∀ q, q ∈ dom (changed_paths patch) → q ≠ p →
         classify (M ruleset q) ≠ Faulted) →
   outcome (main_with M sched env) = inl tt ∧
   ∀ q rule' o,
     q ∈ dom (changed_paths patch) →
     M ruleset q = Some (Some rule', None) → o ∈ Owner_String <$> Owners rule' →
     ∃ fs, (o, fs) ∈ report_blocks M sched ruleset patch ∧ q ∈ fs).
Proof.
  intros Hs Hp Hin Hrule Hnone.
  destruct (printed_report_spec M sched env ruleset patch Hs Hp)
    as (Hout & _ & Hfiles & _).
  split; [done|]. split.
  - intros o fs Hb Hpfs. apply (Hfiles o fs Hb) in Hpfs as (_ & rule' & Hr & Ho).
    rewrite Hrule in Hr. injection Hr as <-. rewrite Hnone in Ho.
    by apply elem_of_nil in Ho.
  - intros Hothers.
    assert (¬ faults M ruleset patch) as Hno.
    { intros (q & Hq & Hm). destruct (decide (q = p)) as [->|Hne].
      - by rewrite Hrule in Hm.
      - by apply (Hothers q). }
    destruct (main_with_prepared M sched env ruleset patch Hp) as (-> & _ & _).
    destruct (report_returns M sched ruleset patch Hs Hno)
      as (-> & _ & _ & _ & Hown & Hfs).
    split; [done|]. intros q rule' o Hq Hr Ho.
    assert (owns M ruleset patch o q) as Hoq.
    { split; [done|]. apply elem_of_owners_found. by exists rule'. }
    assert (o ∈ (report_blocks M sched ruleset patch).*1) as Hkey.
    { apply Hown. by exists q. }
    apply list_elem_of_fmap in Hkey as ([o' fs] & -> & Hb).
    exists fs. split; [done|]. by apply (Hfs o' fs Hb).
Qed.

Lemma ownerless_rule_lists_nothing_witness :
  admissible forward ∧
  prepared env_ownerless ownerless_rules
    [modified "docs/guide.md"; modified "main.go"] ∧
  "docs/guide.md" ∈ dom (changed_paths [modified "docs/guide.md"; modified "main.go"]) ∧
  Match ownerless_rules "docs/guide.md" = Some (Some docs_rule, None) ∧
  Owners docs_rule = [] ∧
  ∀ o fs,
    (o, fs) ∈ report_blocks Match forward ownerless_rules
                [modified "docs/guide.md"; modified "main.go"] →
    "docs/guide.md" ∉ fs.
Proof.
  assert ("docs/guide.md" ∈
          dom (changed_paths [modified "docs/guide.md"; modified "main.go"])) as Hin.
  { apply elem_of_changed_paths. exists (modified "docs/guide.md").
    split; [left|]. vm_compute. left. }
  assert (Match ownerless_rules "docs/guide.md" = Some (Some docs_rule, None)) as Hm.
  { vm_compute. reflexivity. }
  split; [apply admissible_forward|]. split; [apply sample_prepared|].
  split; [exact Hin|]. split; [exact Hm|]. split; [reflexivity|].
  exact (proj1 (proj2
    (ownerless_rule_lists_nothing Match forward env_ownerless ownerless_rules
       [modified "docs/guide.md"; modified "main.go"] "docs/guide.md" docs_rule
       admissible_forward (sample_prepared _ _) Hin Hm eq_refl))).
Defined.

(** C2, as it stands, fails: the same repository printed under two
    admissible orders of the map loops gives two different outputs, and
    one of them lists [b.go] before [a.go]. *)
Lemma output_depends_on_map_order :
  admissible forward ∧ admissible backward ∧
  stdout (main forward env_two_files) =
    [EmptyString; "@gophers"; "  a.go"; "  b.go"] ∧
  stdout (main backward env_two_files) =
    [EmptyString; "@gophers"; "  b.go"; "  a.go"] ∧
  stdout (main forward env_two_files) ≠ stdout (main backward env_two_files).
Proof.
  split; [apply admissible_forward|]. split; [apply admissible_backward|].
  assert (stdout (main forward env_two_files) =
            [EmptyString; "@gophers"; "  a.go"; "  b.go"]) as H1
    by (vm_compute; reflexivity).
  assert (stdout (main backward env_two_files) =
            [EmptyString; "@gophers"; "  b.go"; "  a.go"]) as H2
    by (vm_compute; reflexivity).
  split; [exact H1|]. split; [exact H2|]. rewrite H1, H2. discriminate.
Qed.

(** C2, amended.  Two runs on the same repository end the same way and
    print the same report up to order: the same owners, and under each
    owner the same paths, each once; the order of the blocks and of the
    paths in a block follows the order in which the map loops happen to
    run, and nothing sorts them. *)
Theorem report_same_up_to_order M s1 s2 env ruleset patch :
  admissible s1 → admissible s2 → prepared env ruleset patch →
  stdout (main_with M s1 env) = render (report_blocks M s1 ruleset patch) ∧
  stdout (main_with M s2 env) = render (report_blocks M s2 ruleset patch) ∧
  outcome (main_with M s1 env) = outcome (main_with M s2 env) ∧
  (report_blocks M s1 ruleset patch).*1 ≡ₚ (report_blocks M s2 ruleset patch).*1 ∧
  ∀ o fs1 fs2,
    (o, fs1) ∈ report_blocks M s1 ruleset patch →
    (o, fs2) ∈ report_blocks M s2 ruleset patch →
    fs1 ≡ₚ fs2.
Proof.
  intros H1 H2 Hp.
  destruct (main_with_prepared M s1 env ruleset patch Hp) as (-> & -> & _).
  destruct (main_with_prepared M s2 env ruleset patch Hp) as (-> & -> & _).
  destruct (faults_dec M ruleset patch) as [Hf|Hno].
  - destruct (report_faults M s1 ruleset patch H1 Hf) as (-> & -> & _ & ->).
    destruct (report_faults M s2 ruleset patch H2 Hf) as (-> & -> & _ & ->).
    split_and!; [done..|]. by intros o fs1 fs2 ?%elem_of_nil.
  - destruct (report_returns M s1 ruleset patch H1 Hno)
      as (-> & -> & _ & Hnd1 & Hown1 & Hfs1).
    destruct (report_returns M s2 ruleset patch H2 Hno)
      as (-> & -> & _ & Hnd2 & Hown2 & Hfs2).
    split_and!; [done..| |].
    + apply NoDup_Permutation; [done..|]. intros o. by rewrite Hown1, Hown2.
    + intros o fs1 fs2 Hb1 Hb2.
      destruct (Hfs1 o fs1 Hb1) as [Hn1 He1], (Hfs2 o fs2 Hb2) as [Hn2 He2].
      apply NoDup_Permutation; [done..|]. intros f. by rewrite He1, He2.
Qed.

Lemma report_same_up_to_order_witness :
  admissible forward ∧ admissible backward ∧
  prepared env_two_files (rules [("*.go", ["gophers"])])
    [modified "a.go"; modified "b.go"] ∧
  (report_blocks Match forward (rules [("*.go", ["gophers"])])
     [modified "a.go"; modified "b.go"]).*1
  ≡ₚ (report_blocks Match backward (rules [("*.go", ["gophers"])])
        [modified "a.go"; modified "b.go"]).*1.
Proof.
  split; [apply admissible_forward|]. split; [apply admissible_backward|].
  split; [apply sample_prepared|].
  exact (proj1 (proj2 (proj2 (proj2
    (report_same_up_to_order Match forward backward env_two_files
       (rules [("*.go", ["gophers"])]) [modified "a.go"; modified "b.go"]
       admissible_forward admissible_backward (sample_prepared _ _)))))).
Defined.

(** C3. [Ruleset.Match] tries the rules from the last to the first.  As
    long as the rules it tries answer, it returns the last rule of the
    list that matches the path, without an error, whatever stands before
    that rule: with the rules [* A] and [*.go B] in this order, [main.go]
    gets the rule of [B]; in the other order it gets the rule of [A], the
    later one, although [*.go] is the more specific pattern.  But a rule
    need not answer: the match of the bare pattern [/] faults on every
    path, and where no later rule matches, the fault is met before any
    earlier rule is tried.  With the rules [* A] and [/ B] the path [a.go]
    is matched by the first rule, and a run that meets it panics in the
    matching loop and prints nothing. *)
Theorem match_returns_last_matching_rule :
  (∀ (before : Ruleset) rule after path,
     Rule_Match rule path = Some (true, None) →
     (∀ r, r ∈ after → Rule_Match r path = Some (false, None)) →
     Match (before ++ rule :: after) path = Some (Some rule, None)) ∧
  (∀ (ruleset : Ruleset) (path : string),
     (∀ r, r ∈ ruleset → Rule_Match r path ≠ None) →
     (∃ r, r ∈ ruleset ∧ Rule_Match r path = Some (true, None)) →
     ∃ before rule after,
       ruleset = before ++ rule :: after ∧
       Rule_Match rule path = Some (true, None) ∧
       (∀ r, r ∈ after → Rule_Match r path = Some (false, None)) ∧
       Match ruleset path = Some (Some rule, None)) ∧
  (∀ A B : Owner,
     ∃ rA rB,
       mkRule 1 "*" [A] = Some rA ∧ mkRule 2 "*.go" [B] = Some rB ∧
       Owners rA = [A] ∧ Owners rB = [B] ∧
       Rule_Match rA "main.go" = Some (true, None) ∧
       Rule_Match rB "main.go" = Some (true, None) ∧
       Match [rA; rB] "main.go" = Some (Some rB, None) ∧
       Match [rB; rA] "main.go" = Some (Some rA, None)) ∧
  (∀ (before : Ruleset) rule after path,
     Rule_Match rule path = None →
     (∀ r, r ∈ after → Rule_Match r path = Some (false, None)) →
     Match (before ++ rule :: after) path = None) ∧
  (∀ A B : Owner,
     ∃ rA rB,
       mkRule 1 "*" [A] = Some rA ∧ mkRule 2 "/" [B] = Some rB ∧
       Rule_Match rA "a.go" = Some (true, None) ∧
       (∀ path, Rule_Match rB path = None) ∧
       (∀ path, Match [rA; rB] path = None)) ∧
  (∀ sched,
     admissible sched →
     prepared env_slash slash_rules [modified "a.go"] ∧
     Match slash_rules "a.go" = None ∧
     outcome (main sched env_slash) = inr Panic ∧
     exit_code (main sched env_slash) = 2%Z ∧
     stdout (main sched env_slash) = []).
Proof.
  split_and!.
  - intros before rule after path. apply Match_last.
  - intros ruleset path Hall Hex.
    destruct (last_matching_rule ruleset path Hall Hex)
      as (before & rule & after & -> & Hrule & Hafter).
    exists before, rule, after. split_and!; [done..|].
    by apply Match_last.
  - intros A B. do 2 eexists.
    split; [vm_compute; reflexivity|]. split; [vm_compute; reflexivity|].
    split_and!; vm_compute; reflexivity.
  - intros before rule after path. apply Match_fault.
  - intros A B. do 2 eexists.
    split; [vm_compute; reflexivity|]. split; [vm_compute; reflexivity|].
    split_and!; [vm_compute; reflexivity|done|].
    intros path. apply (Match_fault [_] _ []); [done|].
    by intros r ?%elem_of_nil.
  - intros sched Hs.
    assert (Match slash_rules "a.go" = None) as Hm by (vm_compute; reflexivity).
    assert (faults Match slash_rules [modified "a.go"]) as Hf.
    { exists "a.go". split; [|by rewrite Hm].
      apply elem_of_changed_paths. exists (modified "a.go").
      split; [left|]. vm_compute. left. }
    pose proof (sample_prepared slash_rules [modified "a.go"]) as Hp.
    destruct (main_with_prepared Match sched env_slash _ _ Hp) as (Ho & Hout & _).
    destruct (report_faults Match sched slash_rules _ Hs Hf)
      as (Hpanic & Hquiet & _).
    unfold main, exit_code. rewrite Ho, Hout, Hpanic. done.
Qed.

Lemma match_returns_last_matching_rule_witness :
  (∃ rule,
     Match (rules [("*", ["A"]); ("*.go", ["B"])]) "main.go" = Some (Some rule, None) ∧
     Owner_String <$> Owners rule = ["@B"]) ∧
  admissible forward ∧
  outcome (main forward env_slash) = inr Panic.
Proof.
  destruct match_returns_last_matching_rule as (_ & Hlast & _ & _ & _ & Hslash).
  split.
  - destruct (Hlast (rules [("*", ["A"]); ("*.go", ["B"])]) "main.go")
      as (before & rule & after & Heq & Hrule & Hafter & Hmatch).
    + intros r Hr. vm_compute in Hr.
      apply elem_of_cons in Hr as [->|Hr]; [vm_compute; discriminate|].
      apply list_elem_of_singleton in Hr as ->. vm_compute. discriminate.
    + eexists. split; [right; left|]. vm_compute. reflexivity.
    + exists rule. split; [exact Hmatch|].
      assert (Match (rules [("*", ["A"]); ("*.go", ["B"])]) "main.go" =
              Some (nth_error (rules [("*", ["A"]); ("*.go", ["B"])]) 1, None)) as Hc
        by (vm_compute; reflexivity).
      rewrite Hmatch in Hc. injection Hc as ->. vm_compute. reflexivity.
  - split; [apply admissible_forward|].
    exact (proj1 (proj2 (proj2 (Hslash forward admissible_forward)))).
Defined.

(** C4. The pattern [/docs/] matches a path exactly when the path starts
    with [docs/]: it matches [docs/readme.md] and not
    [sub/docs/readme.md].  The pattern [docs/] matches both, and matches
    below a directory [docs] at any depth. *)
Theorem leading_slash_anchors_to_root :
  ∃ anchored unanchored,
    newPattern "/docs/" = Some (Ok anchored) ∧
    newPattern "docs/" = Some (Ok unanchored) ∧
    pattern_match anchored "docs/readme.md" = Some (true, None) ∧
    pattern_match anchored "sub/docs/readme.md" = Some (false, None) ∧
    pattern_match unanchored "docs/readme.md" = Some (true, None) ∧
    pattern_match unanchored "sub/docs/readme.md" = Some (true, None) ∧
    (∀ path,
       pattern_match anchored path = Some (String.prefix "docs/" path, None)) ∧
    (∀ dir rest,
       dir ≠ EmptyString → no_newline dir = true → no_newline rest = true →
       pattern_match unanchored (dir +:+ "/docs/" +:+ rest) = Some (true, None)).
Proof.
  do 2 eexists.
  split; [vm_compute; reflexivity|]. split; [vm_compute; reflexivity|].
  split_and!; try (vm_compute; reflexivity).
  intros dir rest Hdir Hnl Hrest.
  unfold pattern_match. cbn [leftAnchoredLiteral regex]. do 2 f_equal.
  apply MatchString_spec.
  change (dir +:+ "/docs/" +:+ rest)
    with (dir +:+ String "/" (String "d" (String "o" (String "c" (String "s"
            (String "/" rest)))))).
  rewrite runes_app_ascii by (vm_compute; reflexivity).
  rewrite !runes_ascii by (vm_compute; reflexivity).
  change (utf8.runes dir ++ ?x :: ?t) with (utf8.runes dir ++ [x] ++ t).
  rewrite app_assoc.
  constructor.
  - apply matches_Alt. left. constructor; [|constructor].
    apply matches_Plus_Dot; [by apply runes_nonempty|by apply runes_no_newline].
  - repeat (apply (m_cat _ _ [_]); [constructor|]).
    rewrite <- (app_nil_r (utf8.runes rest)).
    constructor; [|constructor].
    apply matches_Star_Dot. by apply runes_no_newline.
Qed.

Lemma leading_slash_anchors_to_root_witness :
  ∃ unanchored,
    newPattern "docs/" = Some (Ok unanchored) ∧
    pattern_match unanchored ("a/b" +:+ "/docs/" +:+ "x.md") = Some (true, None).
Proof.
  destruct leading_slash_anchors_to_root
    as (anchored & unanchored & _ & Hnew & _ & _ & _ & _ & _ & Hdepth).
  exists unanchored. split; [exact Hnew|].
  apply Hdepth; [discriminate|reflexivity|reflexivity].
Defined.

(** * Further properties of [main.go] *)

(** ** Lines 14-35 and 144-152: the ruleset and the current branch *)

(** X1. The ruleset is loaded before the repository is touched: when
    [.github/CODEOWNERS] cannot be opened the file is not parsed, and when
    it cannot be opened or parsed the run logs "Error loading ruleset."
    and exits with status 1 without a single call into go-git. *)
Theorem ruleset_failure_stops_before_git M sched env :
  (∀ e, os_Open env ".github/CODEOWNERS" = Err e →
     main_with M sched env =
       mkM [Call_Open ".github/CODEOWNERS"; Log Error "Error loading ruleset."]
           (inr (Exit 1))) ∧
  (∀ text e, os_Open env ".github/CODEOWNERS" = Ok text →
     codeowners_ParseFile env text = Err e →
     main_with M sched env =
       mkM [Call_Open ".github/CODEOWNERS"; Call_ParseFile;
            Log Error "Error loading ruleset."]
           (inr (Exit 1))).
Proof.
  split.
  - intros e He. unfold main_with, setup, loadRuleset. by rewrite He.
  - intros text e Ht He. unfold main_with, setup, loadRuleset.
    rewrite Ht. cbn. by rewrite He.
Qed.

Lemma ruleset_failure_stops_before_git_witness :
  os_Open env_no_codeowners ".github/CODEOWNERS" = Err (ErrOther "no such file") ∧
  main_with Match forward env_no_codeowners =
    mkM [Call_Open ".github/CODEOWNERS"; Log Error "Error loading ruleset."]
        (inr (Exit 1)).
Proof.
  split; [reflexivity|].
  exact (proj1 (ruleset_failure_stops_before_git Match forward env_no_codeowners)
           (ErrOther "no such file") eq_refl).
Defined.

(** X2. When HEAD is not a branch (its name does not start with
    [refs/heads/]) the run exits with status 1, prints nothing and looks
    up no branch; where the ruleset and the repository are in order, its
    last act is the log line "Not on a branch.". *)
Theorem detached_head_is_fatal M sched env cur :
  repo_Head env = Ok cur → IsBranch (ref_Name cur) = false →
  exit_code (main_with M sched env) = 1%Z ∧
  stdout (main_with M sched env) = [] ∧
  branch_lookups (events (main_with M sched env)) = [] ∧
  (∀ text ruleset u,
     os_Open env ".github/CODEOWNERS" = Ok text →
     codeowners_ParseFile env text = Ok ruleset →
     git_PlainOpen env "." = Ok u →
     main_with M sched env =
       mkM [Call_Open ".github/CODEOWNERS"; Call_ParseFile; Call_PlainOpen ".";
            Call_Head; Log Error "Not on a branch."]
           (inr (Exit 1))).
Proof.
  intros Hhead Hbranch.
  assert (outcome (setup env) = inr (Exit 1) ∧
          branch_lookups (events (setup env)) = []) as [Hout Hlook].
  { change (post (setup env)
              (λ es o, o = inr (Exit 1) ∧ branch_lookups es = [])).
    unfold setup. rewrite Hhead.
    repeat (first [rewrite Hbranch | mstep]; simplify_eq).
    all: done. }
  rewrite main_with_branch_lookups.
  unfold main_with at 1 2. rewrite (bind_stop _ _ _ Hout).
  unfold exit_code, stdout. cbn [events outcome].
  split_and!; [done|apply setup_run|done|].
  intros text ruleset u Ht Hr Hu. unfold main_with, setup, loadRuleset.
  rewrite Ht. cbn. rewrite Hr. cbn. rewrite Hu. cbn. rewrite Hhead. cbn.
  by rewrite Hbranch.
Qed.

Lemma detached_head_is_fatal_witness :
  repo_Head env_detached = Ok {| ref_Name := "HEAD"; ref_Hash := "c2" |} ∧
  IsBranch "HEAD" = false ∧
  exit_code (main_with Match forward env_detached) = 1%Z ∧
  stdout (main_with Match forward env_detached) = [] ∧
  branch_lookups (events (main_with Match forward env_detached)) = [].
Proof.
  split; [reflexivity|]. split; [reflexivity|].
  destruct (detached_head_is_fatal Match forward env_detached
              {| ref_Name := "HEAD"; ref_Hash := "c2" |} eq_refl eq_refl)
    as (H1 & H2 & H3 & _).
  exact (conj H1 (conj H2 H3)).
Defined.

(** ** Lines 14-141: how a run ends *)

(** X3. A run ends in one of three ways.  Status 1: some step before the
    report failed; nothing was printed and no file was matched.  Status 2
    (panic): every step before the report went through, and for some
    changed path the call of [Match] faulted or brought neither rule nor
    error; nothing was printed.  Status 0: every step went through and
    every changed path got a rule or an error. *)
Theorem exit_status_cases M sched env :
  admissible sched →
  (exit_code (main_with M sched env) = 1%Z ∧
   (∀ ruleset patch, ¬ prepared env ruleset patch) ∧
   stdout (main_with M sched env) = [] ∧
   matched_files (events (main_with M sched env)) = []) ∨
  (exit_code (main_with M sched env) = 2%Z ∧
   (∃ ruleset patch, prepared env ruleset patch ∧ faults M ruleset patch) ∧
   stdout (main_with M sched env) = []) ∨
  (exit_code (main_with M sched env) = 0%Z ∧
   ∃ ruleset patch, prepared env ruleset patch ∧ ¬ faults M ruleset patch).
Proof.
  intros Hs.
  destruct (outcome (setup env)) as [[ruleset patch]|s] eqn:E.
  - apply setup_returns in E.
    destruct (main_with_prepared M sched env ruleset patch E) as (Ho & Hout & _).
    unfold exit_code. rewrite Ho, Hout.
    destruct (faults_dec M ruleset patch) as [Hf|Hno].
    + destruct (report_faults M sched ruleset patch Hs Hf) as (-> & -> & _).
      right. left. split_and!; [done| |done]. by exists ruleset, patch.
    + destruct (report_returns M sched ruleset patch Hs Hno) as (-> & _).
      right. right. split; [done|]. by exists ruleset, patch.
  - left.
    assert (s = Exit 1) as -> by by apply (setup_run env).
    unfold main_with. rewrite (bind_stop _ _ _ E).
    unfold exit_code, stdout. cbn [events outcome]. split_and!.
    + done.
    + intros ruleset patch Hp%setup_prepared. congruence.
    + apply setup_run.
    + apply setup_logs.
Qed.

Lemma exit_status_cases_witness :
  admissible forward ∧
  exit_code (main_with Match forward env_unmatched) = 2%Z ∧
  stdout (main_with Match forward env_unmatched) = [].
Proof.
  split; [apply admissible_forward|].
  destruct (exit_status_cases Match forward env_unmatched admissible_forward)
    as [(H & _)|[(H & _ & Hout)|(H & _)]].
  - vm_compute in H. discriminate H.
  - exact (conj H Hout).
  - vm_compute in H. discriminate H.
Defined.

(** X4. A run that exits with status 1 has logged exactly one error, and
    that log line is the last thing it did. *)
Theorem fatal_exit_logs_once M sched env :
  exit_code (main_with M sched env) = 1%Z →
  ∃ msg, error_logs (events (main_with M sched env)) = [msg] ∧
         last (events (main_with M sched env)) = Some (Log Error msg).
Proof.
  intros Hexit.
  destruct (setup_logs env) as [_ Hlogs].
  destruct (outcome (setup env)) as [[ruleset patch]|s] eqn:E.
  - exfalso. apply setup_returns in E.
    destruct (main_with_prepared M sched env ruleset patch E) as (Ho & _).
    unfold exit_code in Hexit. rewrite Ho in Hexit.
    by destruct (report_events M sched ruleset patch) as [_ [Hr|Hr]];
      rewrite Hr in Hexit.
  - unfold main_with. by rewrite (bind_stop _ _ _ E).
Qed.

Lemma fatal_exit_logs_once_witness :
  exit_code (main_with Match forward env_detached) = 1%Z ∧
  ∃ msg, error_logs (events (main_with Match forward env_detached)) = [msg] ∧
         last (events (main_with Match forward env_detached)) = Some (Log Error msg).
Proof.
  split; [reflexivity|].
  exact (fatal_exit_logs_once Match forward env_detached eq_refl).
Defined.

(** ** Lines 38-103: mainline, merge base and diff *)

(** X5. In a run that reaches the report, the merge base is asked of the
    HEAD commit with the mainline commit as argument, exactly two trees
    are read, that of the first merge base and that of the HEAD commit,
    and the one comparison made goes from the former to the latter. *)
Theorem diff_is_merge_base_to_head M sched env ruleset patch :
  prepared env ruleset patch →
  ∃ cur mb mref mc cc b bases bt ct,
    repo_Head env = Ok cur ∧
    (repo_Branch env "main" = Ok mb ∨
     repo_Branch env "main" = Err ErrBranchNotFound ∧
     repo_Branch env "master" = Ok mb) ∧
    repo_Reference env (Merge mb) true = Ok mref ∧
    repo_CommitObject env (ref_Hash mref) = Ok mc ∧
    repo_CommitObject env (ref_Hash cur) = Ok cc ∧
    commit_MergeBase env cc mc = Ok (b :: bases) ∧
    commit_Tree env b = Ok bt ∧
    commit_Tree env cc = Ok ct ∧
    merge_base_calls (events (main_with M sched env)) = [(cc, mc)] ∧
    tree_calls (events (main_with M sched env)) = [b; cc] ∧
    diff_calls (events (main_with M sched env)) = [(bt, ct)].
Proof.
  intros Hp. rewrite (main_with_events M sched env ruleset patch Hp).
  rewrite merge_base_calls_app, tree_calls_app, diff_calls_app.
  destruct (report_no_git_calls M sched ruleset patch) as (-> & -> & ->).
  rewrite !app_nil_r.
  destruct Hp as (text & cur & mb & mref & mc & cc & b & bases & bt & ct & d &
          H1 & H2 & H3 & H4 & H5 & H6 & H7 & H8 & H9 & H10 & H11 & H12 & H13 & H14).
  exists cur, mb, mref, mc, cc, b, bases, bt, ct.
  split_and!; [done..| | |].
  all: unfold setup, loadRuleset.
  all: rewrite H1; cbn; rewrite H2; cbn; rewrite H3; cbn; rewrite H4; cbn;
    rewrite H5; cbn.
  all: destruct H6 as [H6|[H6 H6']]; rewrite H6; cbn; rewrite ?H6'; cbn.
  all: rewrite H7; cbn; rewrite H8; cbn; rewrite H9; cbn; rewrite H10; cbn.
  all: rewrite H11; cbn; rewrite H12; cbn; rewrite H13; cbn; rewrite H14; cbn.
  all: done.
Qed.

Lemma diff_is_merge_base_to_head_witness :
  prepared env_two_bases [] [modified "a.go"] ∧
  tree_calls (events (main_with Match forward env_two_bases)) =
    [{| commit_Hash := "c0" |}; {| commit_Hash := "c2" |}] ∧
  diff_calls (events (main_with Match forward env_two_bases)) =
    [({| tree_Hash := "c0" |}, {| tree_Hash := "c2" |})].
Proof.
  assert (prepared env_two_bases [] [modified "a.go"]) as Hp.
  { unfold prepared. repeat eexists; cbn; eauto. }
  split; [exact Hp|].
  destruct (diff_is_merge_base_to_head Match forward env_two_bases []
              [modified "a.go"] Hp)
    as (cur & mb & mref & mc & cc & b & bases & bt & ct &
        H1 & _ & _ & _ & H5 & H6 & H7 & H8 & _ & Ht & Hd).
  rewrite Ht, Hd.
  cbn in H1, H5. injection H1 as <-. cbn in H5. injection H5 as <-.
  cbn in H6. injection H6 as <- _. cbn in H7, H8.
  injection H7 as <-. injection H8 as <-. split; reflexivity.
Defined.

(** X6. When the branch [main] is found, what the repository says about
    [master] does not matter: the run is the same for every other answer
    to the remaining branch lookups. *)
Theorem master_ignored_when_main_found M sched env b answer :
  repo_Branch env "main" = Ok b → answer "main" = Ok b →
  main_with M sched (with_Branch env answer) = main_with M sched env.
Proof.
  intros Hmain Hanswer. unfold main_with. f_equal.
  unfold setup, loadRuleset. cbn [with_Branch os_Open codeowners_ParseFile
    git_PlainOpen repo_Head repo_Branch repo_Reference repo_CommitObject
    commit_MergeBase commit_Tree tree_Diff changes_Patch].
  repeat (apply bind_ext; intros ?).
  rewrite Hmain, Hanswer. unfold call.
  cbn [mbind M_bind errors_Is_ErrBranchNotFound]. reflexivity.
Qed.

Lemma master_ignored_when_main_found_witness :
  repo_Branch (sample_env [] [modified "a.go"]) "main" = Ok main_branch ∧
  repo_Branch env_other_master "main" = Ok main_branch ∧
  repo_Branch env_other_master "master" ≠
    repo_Branch (sample_env [] [modified "a.go"]) "master" ∧
  main_with Match forward env_other_master =
    main_with Match forward (sample_env [] [modified "a.go"]).
Proof.
  split; [reflexivity|]. split; [reflexivity|]. split; [discriminate|].
  exact (master_ignored_when_main_found Match forward
           (sample_env [] [modified "a.go"]) main_branch
           (λ name, if String.eqb name "main" then Ok main_branch
                    else Err (ErrOther "config unreadable"))
           eq_refl eq_refl).
Defined.

(** ** Lines 117-126: one match per changed path *)

Lemma stdout_events_silent es :
  Forall (λ e, ∃ line, e = Stdout line) es →
  matched_files es = [] ∧ error_logs es = [].
Proof.
  induction 1 as [|e es [line ->] _ [IH1 IH2]]; [done|]. by cbn.
Qed.

Lemma matched_files_cons e es :
  matched_files (e :: es) =
    match e with
    | Call_Match file => file :: matched_files es
    | _ => matched_files es
    end.
Proof. by destruct e. Qed.

Lemma error_logs_cons e es :
  error_logs (e :: es) =
    match e with
    | Log Error msg => msg :: error_logs es
    | _ => error_logs es
    end.
Proof. by destruct e as [| | | | | | | | | | | |[] ?|]. Qed.

(** The matching loop hands the files to [Match] one after the other, up
    to the first for which it faults, and logs one error for each file
    whose match failed. *)
Lemma match_files_calls M ruleset files m :
  post (match_files M ruleset files m)
    (λ es o,
       (∃ rest, files = matched_files es ++ rest ∧
                ∀ m', o = inl m' → rest = []) ∧
       error_logs es =
         (λ _, match_failed) <$>
           filter (λ f, classify (M ruleset f) = Skipped) (matched_files es)).
Proof.
  revert m. induction files as [|file rest IH]; intros m.
  - unfold post; cbn. split; [by exists []|done].
  - cbn [match_files]. apply post_call.
    destruct (M ruleset file) as [[rule err]|] eqn:E; cbn [fst snd];
      [destruct err as [err|]; [|destruct rule as [rule|]]|].
    + apply post_emit. eapply post_mono; [apply IH|].
      intros es o [(rest' & -> & Hrest) Hlogs].
      rewrite !matched_files_cons, !error_logs_cons. cbv beta iota. split.
      * exists rest'. split; [done|]. apply Hrest.
      * rewrite filter_cons, decide_True by (rewrite E; by destruct rule).
        rewrite fmap_cons. by rewrite Hlogs.
    + eapply post_mono; [apply IH|].
      intros es o [(rest' & -> & Hrest) Hlogs].
      rewrite !matched_files_cons, !error_logs_cons. cbv beta iota. split.
      * exists rest'. split; [done|]. apply Hrest.
      * rewrite filter_cons, decide_False; [done|]. by rewrite E.
    + unfold post. cbn [events outcome].
      rewrite !matched_files_cons, !error_logs_cons. cbv beta iota.
      split; [by exists rest|].
      rewrite filter_cons, decide_False; [done|]. by rewrite E.
    + unfold post. cbn [events outcome].
      rewrite !matched_files_cons, !error_logs_cons. cbv beta iota.
      split; [by exists rest|].
      rewrite filter_cons, decide_False; [done|]. by rewrite E.
Qed.

Lemma report_calls M sched ruleset patch :
  post (report M sched ruleset patch)
    (λ es o,
       (∃ rest, range (order_match sched) (changed_paths patch) =
                  matched_files es ++ rest ∧
                (o = inl tt → rest = [])) ∧
       error_logs es =
         (λ _, match_failed) <$>
           filter (λ f, classify (M ruleset f) = Skipped) (matched_files es)).
Proof.
  unfold report. apply post_bind.
  eapply post_mono; [apply match_files_calls|].
  intros es [m'|s] [(rest & Hfiles & Hrest) Hlogs].
  - unfold post. cbn [events outcome print_report].
    destruct (print_report_spec
                (range (order_print sched)
                   (owner_files (range (order_invert sched) m') m'))
                (owner_files (range (order_invert sched) m') m'))
      as (_ & _ & Hall & _).
    apply stdout_events_silent in Hall as [Hm He].
    unfold print_report in Hm, He. cbn [events] in Hm, He.
    rewrite matched_files_app, error_logs_app, Hm, He, !app_nil_r.
    split; [|done]. exists rest. split; [done|]. intros _. by apply (Hrest m').
  - split; [|done]. exists rest. split; [done|]. by intros [=].
Qed.

(** X7. In a run that reaches the report, no changed path is handed to
    [Match] twice and nothing but changed paths is; when the run returns,
    every changed path was matched exactly once. *)
Theorem each_path_matched_once M sched env ruleset patch :
  admissible sched → prepared env ruleset patch →
  NoDup (matched_files (events (main_with M sched env))) ∧
  (∀ f, f ∈ matched_files (events (main_with M sched env)) →
        f ∈ dom (changed_paths patch)) ∧
  (outcome (main_with M sched env) = inl tt →
   matched_files (events (main_with M sched env))
   ≡ₚ elements (dom (changed_paths patch))).
Proof.
  intros Hs Hp.
  destruct (main_with_prepared M sched env ruleset patch Hp) as (-> & _ & _).
  rewrite (main_with_events M sched env ruleset patch Hp), matched_files_app.
  destruct (setup_logs env) as [-> _]. cbn [app].
  destruct (report_calls M sched ruleset patch) as [(rest & Hfiles & Hrest) _].
  pose proof (range_NoDup (order_match sched) (changed_paths patch) (proj1 Hs))
    as Hnd.
  rewrite Hfiles in Hnd. split_and!.
  - by apply NoDup_app in Hnd as (? & _).
  - intros f Hf. apply (elem_of_range (order_match sched)); [apply Hs|].
    rewrite Hfiles. apply elem_of_app. by left.
  - intros Hret. rewrite (Hrest Hret), app_nil_r in Hfiles. rewrite <- Hfiles.
    apply NoDup_Permutation.
    + by apply range_NoDup, Hs.
    + apply NoDup_elements.
    + intros f. rewrite elem_of_elements. apply elem_of_range, Hs.
Qed.

Lemma each_path_matched_once_witness :
  admissible backward ∧
  prepared env_two_files (rules [("*.go", ["gophers"])])
    [modified "a.go"; modified "b.go"] ∧
  NoDup (matched_files (events (main_with Match backward env_two_files))).
Proof.
  split; [apply admissible_backward|]. split; [apply sample_prepared|].
  exact (proj1 (each_path_matched_once Match backward env_two_files
                  (rules [("*.go", ["gophers"])])
                  [modified "a.go"; modified "b.go"]
                  admissible_backward (sample_prepared _ _))).
Defined.

(** X8. A changed path whose match comes back with an error is listed in
    no block, whether or not a rule came back with the error, and it does
    not stop the run: when no changed path is left without rule and
    error, the run returns, and it has logged "Failed to match rule for
    file." once for each changed path whose match failed, and nothing
    else at level [Error]. *)
Theorem match_error_skips_path M sched env ruleset patch p r e :
  admissible sched → prepared env ruleset patch →
  p ∈ dom (changed_paths patch) → M ruleset p = Some (r, Some e) →
  (∀ o fs, (o, fs) ∈ report_blocks M sched ruleset patch → p ∉ fs) ∧
  (¬ faults M ruleset patch →
   outcome (main_with M sched env) = inl tt ∧
   match_failed ∈ error_logs (events (main_with M sched env)) ∧
   Forall (λ msg, msg = match_failed)
     (error_logs (events (main_with M sched env))) ∧
   List.length (error_logs (events (main_with M sched env))) =
     List.length (filter (λ f, classify (M ruleset f) = Skipped)
               (elements (dom (changed_paths patch))))).
Proof.
  intros Hs Hp Hin Hm. split.
  - intros o fs Hb Hpfs.
    destruct (printed_report_spec M sched env ruleset patch Hs Hp)
      as (_ & _ & Hfiles & _).
    apply (Hfiles o fs Hb) in Hpfs as (_ & rule & Hr & _). congruence.
  - intros Hno.
    destruct (main_with_prepared M sched env ruleset patch Hp) as (-> & _ & _).
    destruct (report_returns M sched ruleset patch Hs Hno) as (Hret & _).
    split; [done|].
    rewrite (main_with_events M sched env ruleset patch Hp), error_logs_app.
    pose proof (setup_logs env) as [_ Hsetup].
    rewrite (setup_prepared env ruleset patch Hp) in Hsetup. rewrite Hsetup.
    cbn [app].
    destruct (report_calls M sched ruleset patch) as [(rest & Hfiles & Hrest) ->].
    rewrite (Hrest Hret), app_nil_r in Hfiles. rewrite <- Hfiles.
    assert (range (order_match sched) (changed_paths patch)
            ≡ₚ elements (dom (changed_paths patch))) as Hperm.
    { apply NoDup_Permutation.
      - by apply range_NoDup, Hs.
      - apply NoDup_elements.
      - intros f. rewrite elem_of_elements. apply elem_of_range, Hs. }
    split_and!.
    + apply list_elem_of_fmap. exists p. split; [done|].
      apply list_elem_of_filter. split; [rewrite Hm; by destruct r|].
      apply elem_of_range; [apply Hs|done].
    + apply Forall_fmap, Forall_true. done.
    + rewrite length_fmap. by rewrite Hperm.
Qed.

Lemma match_error_skips_path_witness :
  admissible forward ∧
  prepared env_broken (rules [("*.go", ["gophers"])])
    [modified "broken.go"; modified "main.go"] ∧
  "broken.go" ∈ dom (changed_paths [modified "broken.go"; modified "main.go"]) ∧
  Match_broken (rules [("*.go", ["gophers"])]) "broken.go" =
    Some (None, Some (ErrOther "bad pattern")) ∧
  ∀ o fs,
    (o, fs) ∈ report_blocks Match_broken forward (rules [("*.go", ["gophers"])])
                [modified "broken.go"; modified "main.go"] →
    "broken.go" ∉ fs.
Proof.
  assert ("broken.go" ∈
          dom (changed_paths [modified "broken.go"; modified "main.go"])) as Hin.
  { apply elem_of_changed_paths. exists (modified "broken.go").
    split; [left|]. vm_compute. left. }
  split; [apply admissible_forward|]. split; [apply sample_prepared|].
  split; [exact Hin|]. split; [reflexivity|].
  exact (proj1 (match_error_skips_path Match_broken forward env_broken
                  (rules [("*.go", ["gophers"])])
                  [modified "broken.go"; modified "main.go"] "broken.go"
                  None (ErrOther "bad pattern")
                  admissible_forward (sample_prepared _ _) Hin eq_refl)).
Defined.

(** ** Lines 128-141: the blocks *)

(** X9. No owner is printed without a file under it; and when no changed
    path has an owner (in particular when nothing changed) the run prints
    nothing at all. *)
Theorem blocks_are_never_empty M sched env ruleset patch :
  admissible sched → prepared env ruleset patch →
  (∀ o fs, (o, fs) ∈ report_blocks M sched ruleset patch → fs ≠ []) ∧
  ((∀ f rule, f ∈ dom (changed_paths patch) →
              M ruleset f = Some (Some rule, None) → Owners rule = []) →
   stdout (main_with M sched env) = []).
Proof.
  intros Hs Hp.
  destruct (printed_report_spec M sched env ruleset patch Hs Hp)
    as (Hout & _ & Hfiles & Howners).
  destruct (main_with_prepared M sched env ruleset patch Hp) as (Ho & _ & _).
  destruct (faults_dec M ruleset patch) as [Hf|Hno].
  - destruct (report_faults M sched ruleset patch Hs Hf) as (_ & _ & _ & Hb).
    rewrite Hout, Hb. split; [|done]. by intros o fs ?%elem_of_nil.
  - destruct (report_returns M sched ruleset patch Hs Hno) as (Hret & _).
    rewrite Ho in Howners. specialize (Howners Hret). split.
    + intros o fs Hb ->.
      assert (o ∈ (report_blocks M sched ruleset patch).*1) as Hkey.
      { apply list_elem_of_fmap. by exists (o, []). }
      apply Howners in Hkey as (f & rule & Hf & Hr & Ho').
      assert (f ∈ []) as Hnil; [|by apply elem_of_nil in Hnil].
      apply (Hfiles o [] Hb). split; [done|]. by exists rule.
    + intros Hnone. rewrite Hout.
      destruct (report_blocks M sched ruleset patch) as [|[o fs] bs]; [done|].
      exfalso.
      assert (o ∈ ((o, fs) :: bs).*1) as Hkey by left.
      apply Howners in Hkey as (f & rule & Hf & Hr & Ho').
      rewrite (Hnone f rule Hf Hr) in Ho'. by apply elem_of_nil in Ho'.
Qed.

Lemma blocks_are_never_empty_witness :
  admissible forward ∧
  prepared env_no_changes (rules [("*.go", ["gophers"])]) [] ∧
  stdout (main_with Match forward env_no_changes) = [].
Proof.
  split; [apply admissible_forward|]. split; [apply sample_prepared|].
  apply (proj2 (blocks_are_never_empty Match forward env_no_changes
                  (rules [("*.go", ["gophers"])]) []
                  admissible_forward (sample_prepared _ _))).
  intros f rule Hf. apply elem_of_changed_paths in Hf as (fp & Hfp & _).
  by apply elem_of_nil in Hfp.
Defined.

Lemma Uniq_loop_fresh seen result collection :
  NoDup collection → (∀ x, x ∈ collection → x ∉ seen) →
  lo.Uniq_loop seen result collection = result ++ collection.
Proof.
  revert seen result.
  induction collection as [|x rest IH]; intros seen result Hnd Hfresh; simpl.
  - by rewrite app_nil_r.
  - apply NoDup_cons in Hnd as [Hx Hnd].
    rewrite decide_False by (apply Hfresh; left).
    rewrite IH, <- app_assoc; [done|done|].
    intros y Hy [->%elem_of_singleton|Hs]%elem_of_union; [done|].
    by apply (Hfresh y); [right|].
Qed.

Lemma Uniq_NoDup_id l : NoDup l → lo.Uniq l = l.
Proof.
  intros H. unfold lo.Uniq. rewrite Uniq_loop_fresh; [done..|].
  intros x _. apply not_elem_of_empty.
Qed.

Lemma foldl_add_file_NoDup file owners acc o :
  NoDup owners →
  foldl (add_file file) acc owners !!! o =
    (acc !!! o) ++ (if decide (o ∈ owners) then [file] else []).
Proof.
  revert acc. induction owners as [|owner owners IH]; intros acc Hnd; cbn [foldl].
  - rewrite decide_False by apply not_elem_of_nil. by rewrite app_nil_r.
  - apply NoDup_cons in Hnd as [Hfresh Hnd].
    rewrite IH, add_file_lookup by done.
    destruct (decide (owner = o)) as [->|Hne].
    + rewrite (decide_False (P := o ∈ owners)) by done.
      rewrite (decide_True (P := o ∈ o :: owners)) by left.
      by rewrite app_nil_r.
    + destruct (decide (o ∈ owners)) as [Hin|Hnin].
      * by rewrite decide_True by by right.
      * rewrite decide_False; [done|].
        intros [->|?]%elem_of_cons; done.
Qed.

(** X10. When no file names an owner twice, the list built for an owner by
    lines 128-133 is the list of the files that name the owner, in the
    order in which the loop met them; if the loop met every file once,
    [lo.Uniq] at line 135 leaves that list as it is. *)
Theorem owner_files_in_loop_order files (fileOwners : gmap string (list string)) o :
  (∀ f, NoDup (fileOwners !!! f : list string)) →
  owner_files files fileOwners !!! o =
    filter (λ f, o ∈ (fileOwners !!! f : list string)) files ∧
  (NoDup files →
   lo.Uniq (owner_files files fileOwners !!! o) =
     owner_files files fileOwners !!! o).
Proof.
  intros Hnd.
  assert (∀ acc,
    foldl (λ ownerFiles file,
             foldl (add_file file) ownerFiles (fileOwners !!! file))
          acc files !!! o =
    (acc !!! o) ++ filter (λ f, o ∈ (fileOwners !!! f : list string)) files) as H.
  { induction files as [|file files IH]; intros acc; cbn [foldl].
    - by rewrite app_nil_r.
    - rewrite IH, foldl_add_file_NoDup by apply Hnd.
      rewrite filter_cons, <- app_assoc. by case_decide. }
  assert (owner_files files fileOwners !!! o =
          filter (λ f, o ∈ (fileOwners !!! f : list string)) files) as Heq.
  { unfold owner_files. by rewrite H, lookup_total_empty. }
  split; [exact Heq|].
  intros Hfiles. apply Uniq_NoDup_id. rewrite Heq. by apply NoDup_filter.
Qed.

Lemma owner_files_in_loop_order_witness :
  (∀ f, NoDup (sample_fileOwners !!! f : list string)) ∧
  owner_files ["b.go"; "a.go"] sample_fileOwners !!! "@x" =
    filter (λ f, "@x" ∈ (sample_fileOwners !!! f : list string)) ["b.go"; "a.go"].
Proof.
  assert (∀ f, NoDup (sample_fileOwners !!! f : list string)) as Hnd.
  { intros f. unfold sample_fileOwners. rewrite lookup_total_alt.
    rewrite lookup_insert. case_decide; [cbn; by repeat constructor; set_solver|].
    rewrite lookup_insert. case_decide; [cbn; by repeat constructor; set_solver|].
    rewrite lookup_empty. cbn. constructor. }
  split; [exact Hnd|].
  exact (proj1 (owner_files_in_loop_order ["b.go"; "a.go"] sample_fileOwners "@x" Hnd)).
Defined.

(** X11. A renamed file is reported under both names: when the run
    returns, the old path is listed under every owner of the rule found
    for the old path and the new path under every owner of the rule found
    for the new path. *)
Theorem rename_lists_both_paths M sched env ruleset patch old new r_old r_new :
  admissible sched → prepared env ruleset patch →
  {| fp_from := Some old; fp_to := Some new |} ∈ patch →
  M ruleset (Path old) = Some (Some r_old, None) →
  M ruleset (Path new) = Some (Some r_new, None) →
  outcome (main_with M sched env) = inl tt →
  (∀ o, o ∈ Owner_String <$> Owners r_old →
        ∃ fs, (o, fs) ∈ report_blocks M sched ruleset patch ∧ Path old ∈ fs) ∧
  (∀ o, o ∈ Owner_String <$> Owners r_new →
        ∃ fs, (o, fs) ∈ report_blocks M sched ruleset patch ∧ Path new ∈ fs).
Proof.
  intros Hs Hp Hin Hold Hnew Hret.
  destruct (printed_report_spec M sched env ruleset patch Hs Hp)
    as (_ & _ & Hfiles & Howners).
  specialize (Howners Hret).
  assert (∀ f rule o,
            f ∈ patch_paths {| fp_from := Some old; fp_to := Some new |} →
            M ruleset f = Some (Some rule, None) → o ∈ Owner_String <$> Owners rule →
            ∃ fs, (o, fs) ∈ report_blocks M sched ruleset patch ∧ f ∈ fs) as H.
  { intros f rule o Hf Hr Ho.
    assert (f ∈ dom (changed_paths patch)) as Hdom.
    { apply elem_of_changed_paths. by eexists. }
    assert (o ∈ (report_blocks M sched ruleset patch).*1) as Hkey.
    { apply Howners. by exists f, rule. }
    apply list_elem_of_fmap in Hkey as ([o' fs] & -> & Hb).
    exists fs. split; [done|]. apply (Hfiles o' fs Hb). split; [done|].
    by exists rule. }
  split; intros o Ho.
  - apply (H (Path old) r_old o); [left|done|done].
  - apply (H (Path new) r_new o); [right; left|done|done].
Qed.

Lemma rename_lists_both_paths_witness :
  ∃ r_old r_new,
    admissible forward ∧
    prepared env_rename rename_rules [renamed "old/x.go" "new/x.go"] ∧
    Match rename_rules "old/x.go" = Some (Some r_old, None) ∧
    Match rename_rules "new/x.go" = Some (Some r_new, None) ∧
    outcome (main_with Match forward env_rename) = inl tt ∧
    (∃ fs, ("@archive", fs) ∈ report_blocks Match forward rename_rules
                                 [renamed "old/x.go" "new/x.go"] ∧
           "old/x.go" ∈ fs) ∧
    (∃ fs, ("@core", fs) ∈ report_blocks Match forward rename_rules
                              [renamed "old/x.go" "new/x.go"] ∧
           "new/x.go" ∈ fs).
Proof.
  do 2 eexists.
  split; [apply admissible_forward|]. split; [apply sample_prepared|].
  split; [vm_compute; reflexivity|]. split; [vm_compute; reflexivity|].
  split; [vm_compute; reflexivity|].
  edestruct (rename_lists_both_paths Match forward env_rename rename_rules
               [renamed "old/x.go" "new/x.go"]
               {| Path := "old/x.go" |} {| Path := "new/x.go" |})
    as [Hold Hnew].
  - apply admissible_forward.
  - apply sample_prepared.
  - left.
  - vm_compute. reflexivity.
  - vm_compute. reflexivity.
  - vm_compute. reflexivity.
  - split; [apply Hold | apply Hnew]; vm_compute; left.
Defined.

Lemma printed_without_master_lookup es :
  printed es = printed (without_master_lookup es).
Proof.
  unfold printed, without_master_lookup.
  induction es as [|e es IH]; [done|].
  destruct e; simpl; try exact IH; [|f_equal; exact IH].
  destruct (String.eqb name "master"); simpl; exact IH.
Qed.

(** X12. A repository that has a branch [master] and no branch [main]
    runs as if [master]'s configuration were that of [main]: the run ends
    the same way, prints the same, and its events are those of the other
    run once the lookup of [master] is taken out; and that lookup comes
    once, right after the lookup of [main], or not at all. *)
Theorem master_stands_in_for_main M sched env b :
  repo_Branch env "main" = Err ErrBranchNotFound →
  repo_Branch env "master" = Ok b →
  outcome (main_with M sched env) =
    outcome (main_with M sched (with_Branch env (λ _, Ok b))) ∧
  stdout (main_with M sched env) =
    stdout (main_with M sched (with_Branch env (λ _, Ok b))) ∧
  (branch_lookups (events (main_with M sched env)) = [] ∨
   branch_lookups (events (main_with M sched env)) = ["main"; "master"]) ∧
  without_master_lookup (events (main_with M sched env)) =
    events (main_with M sched (with_Branch env (λ _, Ok b))).
Proof.
  intros Hmain Hmaster.
  assert (without_master_lookup (events (setup env)) =
            events (setup (with_Branch env (λ _, Ok b))) ∧
          outcome (setup env) = outcome (setup (with_Branch env (λ _, Ok b))))
    as [Hev Hout].
  { change (post (setup env) (λ es o,
      without_master_lookup es = events (setup (with_Branch env (λ _, Ok b))) ∧
      o = outcome (setup (with_Branch env (λ _, Ok b))))).
    unfold setup at 1. rewrite Hmain, Hmaster.
    repeat first [progress cbn [errors_Is_ErrBranchNotFound] | mstep].
    all: simplify_eq.
    all: unfold setup, loadRuleset.
    all: cbn [with_Branch os_Open codeowners_ParseFile git_PlainOpen repo_Head
              repo_Branch repo_Reference repo_CommitObject commit_MergeBase
              commit_Tree tree_Diff changes_Patch].
    all: repeat match goal with
           | H : ?x = _ |- context [?x] => rewrite H; cbn
           end.
    all: repeat match goal with x : unit |- _ => destruct x end.
    all: done. }
  assert (without_master_lookup (events (main_with M sched env)) =
            events (main_with M sched (with_Branch env (λ _, Ok b))) ∧
          outcome (main_with M sched env) =
            outcome (main_with M sched (with_Branch env (λ _, Ok b))))
    as [Hev' Hout'].
  { unfold main_with.
    destruct (outcome (setup env)) as [p|s] eqn:E.
    - rewrite (bind_go _ _ _ E). symmetry in Hout.
      rewrite (bind_go _ _ _ Hout). cbn [events outcome].
      rewrite without_master_lookup_app, Hev. split; [|done]. f_equal.
      destruct (report_events M sched p.1 p.2) as [H _].
      by apply report_events_no_git in H as (_ & _ & _ & _ & ->).
    - rewrite (bind_stop _ _ _ E). symmetry in Hout.
      by rewrite (bind_stop _ _ _ Hout). }
  split_and!; [done| | |done].
  - unfold stdout. rewrite <- Hev'. apply printed_without_master_lookup.
  - rewrite main_with_branch_lookups.
    destruct (setup_run env) as (_ & _ & [H|[[_ H]|[H _]]]);
      [by left | done | by right].
Qed.

Lemma master_stands_in_for_main_witness :
  repo_Branch env_only_master "main" = Err ErrBranchNotFound ∧
  repo_Branch env_only_master "master" = Ok main_branch ∧
  stdout (main_with Match forward env_only_master) =
    stdout (main_with Match forward
              (with_Branch env_only_master (λ _, Ok main_branch))) ∧
  without_master_lookup (events (main_with Match forward env_only_master)) =
    events (main_with Match forward
              (with_Branch env_only_master (λ _, Ok main_branch))).
Proof.
  split; [reflexivity|]. split; [reflexivity|].
  destruct (master_stands_in_for_main Match forward env_only_master
              main_branch eq_refl eq_refl) as (_ & Hout & _ & Hev).
  exact (conj Hout Hev).
Defined.
